(** * FlameGraphFilter: a shallow embedding of [flamegraph_filter.cpp]

    The pipeline [build_stack_map] / [filter_stack] / [shrink_to_stack_limit] /
    [write_filtered_stack_to_file] and the helpers [get_lowest_stack] and
    [get_sample_count] are embedded as Rocq functions.

    - [std::string] is a list of characters; positions and sample counts are
      [size_t] values, integers in [0, 2^64) whose wrap-around is written out.
    - C++ exceptions, [std::exit] and undefined behaviour are the constructors
      of [outcome].
    - [std::map<std::string, ...>] is an association list kept sorted by the
      byte-wise lexicographic order of [std::string].
    - [double] is a set of values (finite rationals, infinities, NaN) with the
      IEEE 754 operations written over a rounding function.
    - [std::regex] belongs to the C++ library and is a parameter. *)

From Stdlib Require Import Ascii String.
From Stdlib Require Import List ZArith QArith Qround Qpower Lia Lqa Bool.
From Stdlib Require Import Sorted Permutation.
From Stdlib Require DecimalString DecimalPos DecimalN.
Import ListNotations.

Local Open Scope Z_scope.

(** ** [size_t] arithmetic *)

Module SizeT.

Definition modulus : Z := 2 ^ 64.

(** [std::string::npos], the largest [size_t]. *)
Definition npos : Z := modulus - 1.

Definition wrap (z : Z) : Z := z mod modulus.

Definition add (a b : Z) : Z := wrap (a + b).
Definition sub (a b : Z) : Z := wrap (a - b).

End SizeT.

(** ** Outcomes of a C++ computation *)

(** The two exception classes the program can raise; both derive from
    [std::exception]. *)
Inductive exn : Type :=
| out_of_range   (* std::out_of_range, thrown by std::string::substr *)
| regex_error.   (* std::regex_error, thrown by the std::regex constructor *)

Inductive outcome (A : Type) : Type :=
| Ret (a : A)            (* normal return *)
| Throw (e : exn)        (* an exception propagates *)
| Exit (code : Z)        (* std::exit was called *)
| Undefined.             (* behaviour the C++ standard leaves undefined *)

Arguments Ret {A} a.
Arguments Throw {A} e.
Arguments Exit {A} code.
Arguments Undefined {A}.

Definition bind {A B : Type} (m : outcome A) (k : A -> outcome B) : outcome B :=
  match m with
  | Ret a => k a
  | Throw e => Throw e
  | Exit c => Exit c
  | Undefined => Undefined
  end.

Notation "x <- m ;; k" := (bind m (fun x => k))
  (at level 61, m at next level, right associativity).

(** ** [std::string] *)

Abbreviation cstring := (list ascii).

(** String literals. *)
Definition str (s : string) : cstring := list_ascii_of_string s.

Definition size (s : cstring) : Z := Z.of_nat (length s).

(** Every [std::string] is shorter than [npos] ([max_size()] is below it). *)
Definition representable (s : cstring) : Prop := size s < SizeT.npos.

Definition semicolon : ascii := ";"%char.
Definition space : ascii := " "%char.

(** Index of the last occurrence of [c] in [l]. *)
Fixpoint rindex (c : ascii) (l : cstring) : option nat :=
  match l with
  | [] => None
  | x :: t =>
      match rindex c t with
      | Some i => Some (S i)
      | None => if Ascii.eqb x c then Some O else None
      end
  end.

(** [s.rfind(c, pos)]: the last position [<= pos] that holds [c], [npos] when
    there is none.  Any [pos >= size - 1] searches the whole string. *)
Definition rfind (s : cstring) (c : ascii) (pos : Z) : Z :=
  if size s =? 0 then SizeT.npos
  else
    let last := Z.min (size s - 1) pos in
    match rindex c (firstn (Z.to_nat (last + 1)) s) with
    | Some i => Z.of_nat i
    | None => SizeT.npos
    end.

(** [s.find_last_of(c)] with the default position [npos]. *)
Definition find_last_of (s : cstring) (c : ascii) : Z := rfind s c SizeT.npos.

(** [s.substr(pos, n)]: throws [std::out_of_range] when [pos > size]. *)
Definition substr (s : cstring) (pos n : Z) : outcome cstring :=
  if size s <? pos then Throw out_of_range
  else Ret (firstn (Z.to_nat (Z.min n (size s - pos))) (skipn (Z.to_nat pos) s)).

(** ** [std::atoi] *)

Definition isspace (c : ascii) : bool :=
  let n := Z.of_nat (nat_of_ascii c) in
  (n =? 32) || ((9 <=? n) && (n <=? 13)).

Definition isdigit (c : ascii) : bool :=
  let n := Z.of_nat (nat_of_ascii c) in
  (48 <=? n) && (n <=? 57).

Definition digit_value (c : ascii) : Z := Z.of_nat (nat_of_ascii c) - 48.

Fixpoint skip_space (l : cstring) : cstring :=
  match l with
  | c :: t => if isspace c then skip_space t else l
  | [] => []
  end.

Fixpoint digits_value (acc : Z) (l : cstring) : Z :=
  match l with
  | c :: t => if isdigit c then digits_value (10 * acc + digit_value c) t else acc
  | [] => acc
  end.

Definition INT_MIN : Z := - 2 ^ 31.
Definition INT_MAX : Z := 2 ^ 31 - 1.

(** The sign and the text after it. *)
Definition split_sign (l : cstring) : bool * cstring :=
  match l with
  | c :: t =>
      if Ascii.eqb c "-"%char then (true, t)
      else if Ascii.eqb c "+"%char then (false, t)
      else (false, l)
  | [] => (false, [])
  end.

(** [atoi]: leading white space, an optional sign, then as many decimal digits
    as there are; [0] when no digit follows.  A value outside [int] is
    undefined behaviour, [None] here. *)
Definition atoi (l : cstring) : option Z :=
  let '(neg, ds) := split_sign (skip_space l) in
  let v := digits_value 0 ds in
  let r := if neg then - v else v in
  if (INT_MIN <=? r) && (r <=? INT_MAX) then Some r else None.

(** ** The line parser *)

(** [get_lowest_stack]: the text between the last [';'] and the last [' ']. *)
Definition get_lowest_stack (full_stack_and_sample_count : cstring)
  : outcome cstring :=
  let location_of_last_semicolon :=
    SizeT.add (find_last_of full_stack_and_sample_count semicolon) 1 in
  substr full_stack_and_sample_count
    location_of_last_semicolon
    (SizeT.sub (find_last_of full_stack_and_sample_count space)
       location_of_last_semicolon).

(** [get_sample_count]: [atoi] of the text from the last [' '] on, converted
    from [int] to [size_t]. *)
Definition get_sample_count (full_stack_and_sample_count : cstring)
  : outcome Z :=
  tail <- substr full_stack_and_sample_count
            (find_last_of full_stack_and_sample_count space) SizeT.npos ;;
  match atoi tail with
  | Some v => Ret (SizeT.wrap v)
  | None => Undefined
  end.

(** The leaf frame of a line, as a total function. *)
Definition leaf (line : cstring) : cstring :=
  match get_lowest_stack line with Ret k => k | _ => [] end.

(** ** [std::map<std::string, std::tuple<size_t, std::vector<std::string>>>] *)

(** [std::string::compare]: bytes compared as unsigned values, a proper prefix
    is smaller. *)
Fixpoint string_compare (a b : cstring) : comparison :=
  match a, b with
  | [], [] => Eq
  | [], _ :: _ => Lt
  | _ :: _, [] => Gt
  | x :: a', y :: b' =>
      match Nat.compare (nat_of_ascii x) (nat_of_ascii y) with
      | Eq => string_compare a' b'
      | c => c
      end
  end.

(** [std::less<std::string>]. *)
Definition string_lt (a b : cstring) : Prop := string_compare a b = Lt.

(** The mapped value: total sample count and the lines of the group. *)
Abbreviation stack_entry := (Z * list cstring)%type.

(** The map, as the sequence of its bindings in iteration order. *)
Abbreviation stack_map_t := (list (cstring * stack_entry)).

(** [m.find(k)], [None] for [m.end()]. *)
Fixpoint map_find (k : cstring) (m : stack_map_t) : option stack_entry :=
  match m with
  | [] => None
  | (k', v) :: m' =>
      match string_compare k k' with
      | Eq => Some v
      | Lt => None
      | Gt => map_find k m'
      end
  end.

(** [m[k] = v]: replaces the binding of [k] or inserts it at its place. *)
Fixpoint map_put (k : cstring) (v : stack_entry) (m : stack_map_t) : stack_map_t :=
  match m with
  | [] => [(k, v)]
  | (k', v') :: m' =>
      match string_compare k k' with
      | Lt => (k, v) :: m
      | Eq => (k, v) :: m'
      | Gt => (k', v') :: map_put k v m'
      end
  end.

(** ** The stack aggregator *)

(** One iteration of the [while (std::getline(folded_file, line))] loop. *)
Definition build_step (stack_map : stack_map_t) (line : cstring)
  : outcome stack_map_t :=
  lowest_stack <- get_lowest_stack line ;;
  match map_find lowest_stack stack_map with
  | Some (count, lines) =>
      c <- get_sample_count line ;;
      Ret (map_put lowest_stack (SizeT.add count c, lines ++ [line]) stack_map)
  | None =>
      c <- get_sample_count line ;;
      Ret (map_put lowest_stack (c, [line]) stack_map)
  end.

Fixpoint build_loop (lines : list cstring) (stack_map : stack_map_t)
  : outcome stack_map_t :=
  match lines with
  | [] => Ret stack_map
  | line :: rest =>
      stack_map' <- build_step stack_map line ;;
      build_loop rest stack_map'
  end.

(** [build_stack_map]: the file is [None] when it cannot be opened, else the
    lines [std::getline] yields. *)
Definition build_stack_map (folded_file : option (list cstring))
  : outcome stack_map_t :=
  match folded_file with
  | None => Exit 1
  | Some lines => build_loop lines []
  end.

(** ** [double] *)

(** The values of a [double].  The two zeros are one value [Fin 0]: the program
    compares doubles and divides by the cast of a [size_t], which is never
    [-0.0], so the sign of a zero is never observed. *)
Inductive double : Type :=
| NaN
| NInf
| Fin (q : Q)
| PInf.

Definition Qltb (x y : Q) : bool := negb (Qle_bool y x).

(** [a > b]; false as soon as one side is NaN. *)
Definition dgt (a b : double) : bool :=
  match a, b with
  | NaN, _ | _, NaN => false
  | NInf, _ => false
  | _, PInf => false
  | PInf, _ => true
  | Fin _, NInf => true
  | Fin x, Fin y => Qltb y x
  end.

(** [a == b]; false as soon as one side is NaN. *)
Definition deq (a b : double) : bool :=
  match a, b with
  | NInf, NInf | PInf, PInf => true
  | Fin x, Fin y => Qeq_bool x y
  | _, _ => false
  end.

(** [a <= b] on values that are not NaN, used to state monotony. *)
Definition dle (a b : double) : Prop :=
  match a, b with
  | NaN, _ | _, NaN => False
  | NInf, _ => True
  | _, PInf => True
  | PInf, _ => False
  | Fin _, NInf => False
  | Fin x, Fin y => (x <= y)%Q
  end.

(** The nearest integer, ties to even. *)
Definition round_half_even (s : Q) : Z :=
  let f := Qfloor s in
  match Qcompare (s - inject_Z f) (1 # 2) with
  | Lt => f
  | Gt => f + 1
  | Eq => if Z.even f then f else f + 1
  end.

(** [mag x] for [x > 0]: the integer [e] with [2^(e-1) <= x < 2^e]. *)
Definition mag (x : Q) : Z :=
  let l := Z.log2 (Qnum x) - Z.log2 (Zpos (Qden x)) in
  if Qle_bool (2 ^ l) x then l + 1 else l.

(** The exponent of the last place of [x > 0] in binary64: 53 bits of
    mantissa, least exponent [-1074]. *)
Definition cexp (x : Q) : Z := Z.max (mag x - 53) (-1074).

(** The nearest multiple of [2 ^ cexp x]. *)
Definition pos_value (x : Q) : Q :=
  inject_Z (round_half_even (x / 2 ^ cexp x)) * 2 ^ cexp x.

(** Rounding of a positive rational to binary64, [None] when it overflows to
    infinity, from [2^1024] on. *)
Definition round_binary64_pos (x : Q) : option Q :=
  let r := Qred (pos_value x) in
  if Qle_bool (2 ^ 1024) r then None else Some r.

(** IEEE 754 binary64 rounding to nearest, ties to even. *)
Definition round_binary64 (x : Q) : double :=
  match Qcompare x 0 with
  | Eq => Fin 0
  | Gt => match round_binary64_pos x with Some r => Fin r | None => PInf end
  | Lt => match round_binary64_pos (- x) with
          | Some r => Fin (Qred (- r))
          | None => NInf
          end
  end.

Section Arithmetic.

(** The rounding of the floating-point unit. *)
Variable rnd : Q -> double.

(** [static_cast<double>(n)] for a [size_t]. *)
Definition of_size_t (n : Z) : double := rnd (inject_Z n).

(** The literal [0.01]. *)
Definition d0_01 : double := rnd (1 # 100).

(** [a * b]. *)
Definition dmul (a b : double) : double :=
  match a, b with
  | NaN, _ | _, NaN => NaN
  | Fin x, Fin y => rnd (x * y)
  | Fin x, PInf | PInf, Fin x =>
      if Qeq_bool x 0 then NaN else if Qle_bool 0 x then PInf else NInf
  | Fin x, NInf | NInf, Fin x =>
      if Qeq_bool x 0 then NaN else if Qle_bool 0 x then NInf else PInf
  | PInf, PInf | NInf, NInf => PInf
  | PInf, NInf | NInf, PInf => NInf
  end.

(** [a / b], for a divisor whose zero is [+0.0]. *)
Definition ddiv (a b : double) : double :=
  match a, b with
  | NaN, _ | _, NaN => NaN
  | Fin x, Fin y =>
      if Qeq_bool y 0
      then if Qeq_bool x 0 then NaN else if Qle_bool 0 x then PInf else NInf
      else rnd (x / y)
  | Fin _, PInf | Fin _, NInf => Fin 0
  | PInf, Fin y => if Qle_bool 0 y then PInf else NInf
  | NInf, Fin y => if Qle_bool 0 y then NInf else PInf
  | PInf, PInf | PInf, NInf | NInf, PInf | NInf, NInf => NaN
  end.

(** [static_cast<double>(count) / static_cast<double>(total_samples)]. *)
Definition share (count total_samples : Z) : double :=
  ddiv (of_size_t count) (of_size_t total_samples).

(** [0.01 * cutoff_percentage]. *)
Definition cutoff_fraction (cutoff_percentage : double) : double :=
  dmul d0_01 cutoff_percentage.

(** The test of [filter_stack]:
    [static_cast<double>(count) / static_cast<double>(total_samples)
       > 0.01 * cutoff_percentage]. *)
Definition above_cutoff (count total_samples : Z) (cutoff_percentage : double)
  : bool :=
  dgt (share count total_samples) (cutoff_fraction cutoff_percentage).

(** The rounding returns the integer [z] itself. *)
Definition exact_on (z : Z) : Prop :=
  exists q, rnd (inject_Z z) = Fin q /\ (q == inject_Z z)%Q.

(** The rounding never inverts an order. *)
Definition monotone : Prop :=
  forall x y, (x <= y)%Q -> dle (rnd x) (rnd y).

(** What the proofs below use of rounding to nearest: it is monotone and
    leaves 0, 1 and 2^64 as they are. *)
Definition well_rounded : Prop :=
  monotone /\ exact_on 0 /\ exact_on 1 /\ exact_on (2 ^ 64).

End Arithmetic.

(** ** Vocabulary of the statements *)

(** The sample count of a line, [0] where [get_sample_count] does not return. *)
Definition count (line : cstring) : Z :=
  match get_sample_count line with Ret c => c | _ => 0 end.

Definition string_eqb (a b : cstring) : bool :=
  match string_compare a b with Eq => true | _ => false end.

Definition has_leaf (k : cstring) (line : cstring) : bool :=
  string_eqb (leaf line) k.

(** The lines of the input that share the leaf [k], in file order. *)
Definition group_of (lines : list cstring) (k : cstring) : list cstring :=
  filter (has_leaf k) lines.

(** The sum of the counts of some lines, in [size_t] arithmetic. *)
Definition group_total (members : list cstring) : Z :=
  SizeT.wrap (fold_right Z.add 0 (map count members)).

(** The text after the last space of a line. *)
Definition count_token (line : cstring) : cstring :=
  match rindex space line with
  | Some i => skipn (S i) line
  | None => line
  end.

(** A token starts with an integer when, after white space and an optional
    sign, a decimal digit comes. *)
Definition leading_integer (token : cstring) : bool :=
  match snd (split_sign (skip_space token)) with
  | c :: _ => isdigit c
  | [] => false
  end.

(** The invariant of [std::map]: keys strictly increasing. *)
Definition sorted_map (m : stack_map_t) : Prop :=
  StronglySorted string_lt (map fst m).

(** What the aggregation of [lines] binds to the leaf [k]. *)
Definition aggregated (lines : list cstring) (k : cstring) : option stack_entry :=
  match group_of lines k with
  | [] => None
  | members => Some (group_total members, members)
  end.

(** [m] is the aggregation of [lines]. *)
Definition aggregates (lines : list cstring) (m : stack_map_t) : Prop :=
  sorted_map m /\ forall k, map_find k m = aggregated lines k.

(** [get_sample_count] returns on the line. *)
Definition parsed (line : cstring) : Prop :=
  exists c, get_sample_count line = Ret c.

(** No [';'] after the last space of the line. *)
Definition clean_token (line : cstring) : Prop :=
  ~ In semicolon (count_token line).

(** The count of a group is the sum of the counts of its members, each of
    which has one. *)
Definition consistent (e : stack_entry) : Prop :=
  Forall parsed (snd e) /\ fst e = group_total (snd e).

(** [current_position] is [npos] or the position of a [';'] of [stack]. *)
Definition cut_position (stack : cstring) (current_position : Z) : Prop :=
  current_position = SizeT.npos \/
  exists l1 l2, stack = l1 ++ semicolon :: l2 /\ current_position = size l1.

(** The sum of the counts of a map, without wrap-around. *)
Definition counts_sum (m : stack_map_t) : Z :=
  fold_right Z.add 0 (map (fun t => fst (snd t)) m).

(** The lines of a map, group after group. *)
Definition lines_of (m : stack_map_t) : list cstring :=
  concat (map (fun t => snd (snd t)) m).

(** The text after the last [c] of [s], all of [s] when it holds no [c]. *)
Definition after_last (c : ascii) (s : cstring) : cstring :=
  match rindex c s with
  | Some i => skipn (S i) s
  | None => s
  end.

(** The text before the last [c] of [s], all of [s] when it holds no [c]. *)
Definition before_last (c : ascii) (s : cstring) : cstring :=
  match rindex c s with
  | Some i => firstn i s
  | None => s
  end.

(** The decimal numeral of [n], as the Standard Library prints it. *)
Definition decimal (n : N) : cstring :=
  list_ascii_of_string
    (DecimalString.NilEmpty.string_of_uint (N.to_uint n)).

(** ** [operator<<] for [std::vector<T>] *)

(** The stream [os] is the text written so far; [print] is [operator<<] of
    [T].  [std::copy] to an [std::ostream_iterator<T>(os, ", ")] writes each
    element of [v.begin() .. std::prev(v.end())] followed by [", "]; on an
    empty vector [std::prev(v.end())] and [v.back()] are undefined. *)
Definition operator_shift_left {T : Type} (print : T -> cstring)
  (os : cstring) (v : list T) : outcome cstring :=
  match v with
  | [] => Undefined
  | first :: _ =>
      let os1 := os ++ str "(" in
      let os2 := fold_left (fun o x => o ++ print x ++ str ", ")
                           (removelast v) os1 in
      Ret (os2 ++ print (last v first) ++ str ")")
  end.

(** The texts [l], with [sep] between each two of them. *)
Fixpoint join (sep : cstring) (l : list cstring) : cstring :=
  match l with
  | [] => []
  | x :: rest =>
      match rest with
      | [] => x
      | _ :: _ => x ++ sep ++ join sep rest
      end
  end.

(** ** Inputs of the examples *)

(** A stand-in for [std::regex] on the patterns used in the examples below:
    the lone ["("] does not compile, as in ECMAScript; any other pattern is
    read as a literal, which is what [std::regex_match] does for a pattern of
    letters and digits. *)
Definition literal_regex_compile (p : cstring) : option cstring :=
  match p with
  | [c] => if Ascii.eqb c "("%char then None else Some p
  | _ => Some p
  end.

Definition literal_regex_match (e s : cstring) : bool :=
  string_eqb e s.

(** The input of the end-to-end example. *)
Definition example_lines : list cstring :=
  [str "main;foo;bar 10"; str "main;foo;baz 5"; str "main;qux 85"].

Definition example_map : stack_map_t :=
  [(str "bar", (10, [str "main;foo;bar 10"]));
   (str "baz", (5, [str "main;foo;baz 5"]));
   (str "qux", (85, [str "main;qux 85"]))].

(** The input of the boundary example: a group of 5 samples out of 1000. *)
Definition boundary_lines : list cstring := [str "x;a 5"; str "x;b 995"].

Definition boundary_map : stack_map_t :=
  [(str "a", (5, [str "x;a 5"])); (str "b", (995, [str "x;b 995"]))].

(** A file with two lines of one leaf and a line without samples. *)
Definition grouped_lines : list cstring :=
  [str "main;io;read 3"; str "main;parse 2"; str "main;net;read 4";
   str "idle 0"].

Definition grouped_map : stack_map_t :=
  [(str "idle", (0, [str "idle 0"]));
   (str "parse", (2, [str "main;parse 2"]));
   (str "read", (7, [str "main;io;read 3"; str "main;net;read 4"]))].

(** ** The pipeline after aggregation *)

Fixpoint map_outcome {A B : Type} (f : A -> outcome B) (l : list A)
  : outcome (list B) :=
  match l with
  | [] => Ret []
  | a :: rest =>
      b <- f a ;;
      bs <- map_outcome f rest ;;
      Ret (b :: bs)
  end.

Section Pipeline.

(** The rounding of the floating-point unit. *)
Variable rnd : Q -> double.

(** [std::regex]: its constructor, [None] when it throws [std::regex_error],
    and [std::regex_match] on a whole string. *)
Variable regex : Type.
Variable regex_compile : cstring -> option regex.
Variable regex_match : regex -> cstring -> bool.

(** [std::accumulate] of the counts, from [size_t{0}]. *)
Definition total_samples_of (stack_map : stack_map_t) : Z :=
  fold_left (fun state element => SizeT.add state (fst (snd element)))
            stack_map 0.

(** The loop over [regexes_to_show]: each regex is constructed when its turn
    comes; the loop breaks at the first match. *)
Fixpoint match_any (stack_frame : cstring) (regexes : list cstring)
  : outcome bool :=
  match regexes with
  | [] => Ret false
  | regex_string :: rest =>
      match regex_compile regex_string with
      | None => Throw regex_error
      | Some expression =>
          if regex_match expression stack_frame then Ret true
          else match_any stack_frame rest
      end
  end.

(** The body of the [std::for_each] lambda, on one binding [t]. *)
Definition filter_visit (total_samples : Z) (cutoff_percentage : double)
  (regexes_to_show : list cstring) (filtered_stacks : list stack_entry)
  (t : cstring * stack_entry) : outcome (list stack_entry) :=
  if above_cutoff rnd (fst (snd t)) total_samples cutoff_percentage then
    match regexes_to_show with
    | [] => Ret (filtered_stacks ++ [snd t])
    | _ :: _ =>
        match snd (snd t) with
        | [] => Undefined
        | first :: _ =>
            stack_frame <- get_lowest_stack first ;;
            matched <- match_any stack_frame regexes_to_show ;;
            Ret (if matched : bool then filtered_stacks ++ [snd t]
                 else filtered_stacks)
        end
    end
  else Ret filtered_stacks.

Fixpoint filter_loop (total_samples : Z) (cutoff_percentage : double)
  (regexes_to_show : list cstring) (bindings : stack_map_t)
  (filtered_stacks : list stack_entry) : outcome (list stack_entry) :=
  match bindings with
  | [] => Ret filtered_stacks
  | t :: rest =>
      filtered_stacks' <- filter_visit total_samples cutoff_percentage
                            regexes_to_show filtered_stacks t ;;
      filter_loop total_samples cutoff_percentage regexes_to_show rest
                  filtered_stacks'
  end.

Definition filter_stack (stack_map : stack_map_t) (cutoff_percentage : double)
  (regexes_to_show : list cstring) : outcome (list stack_entry) :=
  filter_loop (total_samples_of stack_map) cutoff_percentage regexes_to_show
              stack_map [].

(** The inner [for] loop of [shrink_to_stack_limit]: at most [n] calls of
    [rfind], none once [current_position] is [npos]. *)
Fixpoint find_cut (stack : cstring) (n : nat) (current_position : Z) : Z :=
  match n with
  | O => current_position
  | S n' =>
      if current_position =? SizeT.npos then current_position
      else find_cut stack n'
             (rfind stack semicolon (SizeT.sub current_position 1))
  end.

(** The body of the loop over the lines of a group. *)
Definition shrink_line (stack_limit : Z) (stack : cstring) : outcome cstring :=
  let current_position := find_cut stack (Z.to_nat stack_limit) (size stack) in
  if current_position =? SizeT.npos then Ret stack
  else substr stack (SizeT.add current_position 1) SizeT.npos.

Definition shrink_entry (stack_limit : Z) (stack_list : stack_entry)
  : outcome stack_entry :=
  stacks <- map_outcome (shrink_line stack_limit) (snd stack_list) ;;
  Ret (fst stack_list, stacks).

Definition shrink_to_stack_limit (stacks_map : list stack_entry)
  (stack_limit : Z) : outcome (list stack_entry) :=
  if stack_limit =? 0 then Ret stacks_map
  else map_outcome (shrink_entry stack_limit) stacks_map.

(** [write_filtered_stack_to_file]: the lines written, one per member, when
    the output file opens. *)
Definition write_filtered_stack_to_file (stacks : list stack_entry)
  (out_file_opens : bool) : outcome (list cstring) :=
  if out_file_opens then Ret (concat (map snd stacks)) else Exit 1.

(** What a run leaves behind: the exit code and the content of the output
    file, [None] when the file was never opened for writing. *)
Inductive run : Type :=
| Exited (code : Z) (output : option (list cstring))
| UndefinedRun.

(** [main] once the options are parsed: the pipeline inside
    [try { ... } catch (std::exception& e) { return 1; }]. *)
Definition main (input_file : option (list cstring))
  (cutoff_percentage : double) (stack_limit : Z)
  (regexes_to_show : list cstring) (out_file_opens : bool) : run :=
  match
    (stack_map <- build_stack_map input_file ;;
     filtered <- filter_stack stack_map cutoff_percentage regexes_to_show ;;
     shrunk <- shrink_to_stack_limit filtered stack_limit ;;
     write_filtered_stack_to_file shrunk out_file_opens)
  with
  | Ret written => Exited 0 (Some written)
  | Throw _ => Exited 1 None
  | Exit code => Exited code None
  | Undefined => UndefinedRun
  end.

(** The pattern part of the lambda as a test: true when the pattern set is
    empty or the loop over the patterns reaches a match. *)
Definition shown (regexes_to_show : list cstring) (t : cstring * stack_entry)
  : bool :=
  match regexes_to_show with
  | [] => true
  | _ :: _ =>
      match snd (snd t) with
      | [] => false
      | first :: _ =>
          match match_any (leaf first) regexes_to_show with
          | Ret matched => matched
          | _ => false
          end
      end
  end.

(** Both tests of the lambda on one binding. *)
Definition passes (total_samples : Z) (cutoff_percentage : double)
  (regexes_to_show : list cstring) (t : cstring * stack_entry) : bool :=
  above_cutoff rnd (fst (snd t)) total_samples cutoff_percentage
  && shown regexes_to_show t.

(** The bindings [filter_stack] keeps. *)
Definition retained (stack_map : stack_map_t) (cutoff_percentage : double)
  (regexes_to_show : list cstring) : stack_map_t :=
  filter (passes (total_samples_of stack_map) cutoff_percentage
                 regexes_to_show)
         stack_map.

(** [std::regex_match] of a frame against one pattern that compiles. *)
Definition pattern_matches (stack_frame : cstring) (regex_string : cstring)
  : bool :=
  match regex_compile regex_string with
  | Some expression => regex_match expression stack_frame
  | None => false
  end.

(** * Properties *)

(** ** [size_t] and outcomes *)

Lemma wrap_small z : 0 <= z < SizeT.modulus -> SizeT.wrap z = z.
Proof. intros H. unfold SizeT.wrap. now apply Z.mod_small. Qed.

Lemma wrap_range z : 0 <= SizeT.wrap z < SizeT.modulus.
Proof. unfold SizeT.wrap. apply Z.mod_pos_bound. reflexivity. Qed.

Lemma bind_Ret_inv {A B : Type} (m : outcome A) (k : A -> outcome B) (b : B) :
  bind m k = Ret b -> exists a, m = Ret a /\ k a = Ret b.
Proof. destruct m; simpl; intros H; try discriminate. eauto. Qed.

Ltac inv_bind H :=
  let a := fresh "a" in
  let Ha := fresh "Ha" in
  apply bind_Ret_inv in H; destruct H as (a & Ha & H).

(** ** Searching a string from the right *)

Lemma rindex_None c l : rindex c l = None <-> ~ In c l.
Proof.
  induction l as [|x t IH]; simpl.
  - tauto.
  - destruct (rindex c t) as [i|].
    + split; [discriminate|]. intros H. exfalso. apply H. right.
      destruct (in_dec ascii_dec c t) as [Hin|Hn]; [exact Hin|].
      apply IH in Hn. discriminate.
    + destruct (Ascii.eqb_spec x c) as [->|Hne].
      * split; [discriminate|]. intros H. exfalso. apply H. now left.
      * split; [|reflexivity]. intros _ [E|Hin]; [congruence|].
        now apply (proj1 IH).
Qed.

Lemma rindex_Some c l i :
  rindex c l = Some i ->
  exists l1 l2, l = l1 ++ c :: l2 /\ length l1 = i /\ ~ In c l2.
Proof.
  revert i. induction l as [|x t IH]; simpl; intros i H; [discriminate|].
  destruct (rindex c t) as [j|] eqn:E.
  - injection H as <-. destruct (IH j eq_refl) as (l1 & l2 & -> & <- & Hn).
    exists (x :: l1), l2. now repeat split.
  - destruct (Ascii.eqb_spec x c) as [->|Hne]; [|discriminate].
    injection H as <-. exists [], t. repeat split. now apply rindex_None.
Qed.

Lemma rindex_app c l1 l2 :
  ~ In c l2 -> rindex c (l1 ++ c :: l2) = Some (length l1).
Proof.
  intros Hn. induction l1 as [|x t IH]; simpl.
  - apply rindex_None in Hn. rewrite Hn. now rewrite Ascii.eqb_refl.
  - now rewrite IH.
Qed.

Lemma size_nonneg s : 0 <= size s.
Proof. unfold size. lia. Qed.

Lemma size_app a b : size (a ++ b) = size a + size b.
Proof. unfold size. rewrite length_app. lia. Qed.

Lemma size_cons c a : size (c :: a) = 1 + size a.
Proof. unfold size. simpl length. lia. Qed.

(** [rfind] answers [npos] or the position of an occurrence of [c]. *)
Lemma rfind_cases s c pos :
  rfind s c pos = SizeT.npos \/
  exists l1 l2, s = l1 ++ c :: l2 /\ rfind s c pos = size l1.
Proof.
  unfold rfind. destruct (size s =? 0); [now left|].
  set (n := Z.to_nat (Z.min (size s - 1) pos + 1)).
  destruct (rindex c (firstn n s)) as [i|] eqn:E; [right|now left].
  apply rindex_Some in E. destruct E as (l1 & l2 & E & <- & _).
  exists l1, (l2 ++ skipn n s). split; [|reflexivity].
  rewrite <- (firstn_skipn n s) at 1. rewrite E, <- app_assoc. reflexivity.
Qed.

Lemma find_last_of_rindex s c :
  size s <= SizeT.modulus ->
  find_last_of s c =
    match rindex c s with Some i => Z.of_nat i | None => SizeT.npos end.
Proof.
  intros Hs. unfold find_last_of, rfind.
  destruct (size s =? 0) eqn:E0.
  - apply Z.eqb_eq in E0. unfold size in E0.
    destruct s; [reflexivity|simpl in E0; lia].
  - apply Z.eqb_neq in E0. pose proof (size_nonneg s).
    replace (Z.to_nat (Z.min (size s - 1) SizeT.npos + 1)) with (length s).
    + now rewrite firstn_all.
    + unfold SizeT.npos. rewrite Z.min_l by lia. unfold size. lia.
Qed.

Lemma find_last_of_absent s c :
  ~ In c s -> find_last_of s c = SizeT.npos.
Proof.
  intros Hn. destruct (rfind_cases s c SizeT.npos) as [H|(l1 & l2 & -> & _)].
  - exact H.
  - exfalso. apply Hn. apply in_or_app. right. now left.
Qed.

Lemma find_last_of_last s c l1 l2 :
  size s <= SizeT.modulus -> s = l1 ++ c :: l2 -> ~ In c l2 ->
  find_last_of s c = size l1.
Proof.
  intros Hs -> Hn. rewrite find_last_of_rindex by exact Hs.
  now rewrite rindex_app.
Qed.

(** A string that holds [c] splits at its last [c]. *)
Lemma last_occurrence (c : ascii) (s : cstring) :
  In c s -> exists l1 l2, s = l1 ++ c :: l2 /\ ~ In c l2.
Proof.
  intros Hin. destruct (rindex c s) as [i|] eqn:E.
  - apply rindex_Some in E. destruct E as (l1 & l2 & E & _ & Hn). eauto.
  - apply rindex_None in E. contradiction.
Qed.

(** ** [substr] *)

Lemma substr_to_end s l1 l2 :
  representable s -> s = l1 ++ l2 -> substr s (size l1) SizeT.npos = Ret l2.
Proof.
  intros Hr ->. unfold substr. unfold representable in Hr.
  rewrite size_app in *. pose proof (size_nonneg l1). pose proof (size_nonneg l2).
  destruct (size l1 + size l2 <? size l1) eqn:E; [apply Z.ltb_lt in E; lia|].
  f_equal.
  replace (Z.to_nat (size l1)) with (length l1) by (unfold size; lia).
  rewrite skipn_app, skipn_all, Nat.sub_diag. simpl.
  rewrite Z.min_r by lia.
  replace (Z.to_nat (size l1 + size l2 - size l1)) with (length l2)
    by (unfold size; lia).
  apply firstn_all.
Qed.

(** ** The line parser *)

(** [get_lowest_stack] never throws: the position it hands to [substr] is at
    most the size of the line. *)
Lemma get_lowest_stack_total s : exists k, get_lowest_stack s = Ret k.
Proof.
  unfold get_lowest_stack, substr.
  set (loc := SizeT.add (find_last_of s semicolon) 1).
  assert (Hloc : loc <= size s).
  { subst loc. unfold find_last_of.
    destruct (rfind_cases s semicolon SizeT.npos) as [->|(l1 & l2 & E & ->)].
    - apply size_nonneg.
    - unfold SizeT.add, SizeT.wrap. rewrite E, size_app, size_cons.
      pose proof (size_nonneg l1). pose proof (size_nonneg l2).
      assert (0 < SizeT.modulus) by reflexivity.
      pose proof (Z.mod_le (size l1 + 1) SizeT.modulus). lia. }
  destruct (size s <? loc) eqn:E; [apply Z.ltb_lt in E; lia|]. eauto.
Qed.

Lemma get_lowest_stack_leaf s : get_lowest_stack s = Ret (leaf s).
Proof.
  unfold leaf. destruct (get_lowest_stack_total s) as [k ->]. reflexivity.
Qed.

(** The count of a line that ends in [" " ++ token]. *)
Lemma get_sample_count_token s front token :
  representable s -> s = front ++ space :: token -> ~ In space token ->
  get_sample_count s =
    match atoi (space :: token) with
    | Some v => Ret (SizeT.wrap v)
    | None => Undefined
    end.
Proof.
  intros Hr E Hn. unfold get_sample_count.
  assert (Hs : size s <= SizeT.modulus)
    by (unfold representable, SizeT.npos in Hr; lia).
  rewrite (find_last_of_last s space front token Hs E Hn).
  rewrite (substr_to_end s front (space :: token) Hr E). reflexivity.
Qed.

(** The count of a line without a space: [substr] is called at [npos]. *)
Lemma get_sample_count_no_space s :
  representable s -> ~ In space s -> get_sample_count s = Throw out_of_range.
Proof.
  intros Hr Hn. unfold get_sample_count.
  rewrite (find_last_of_absent s space Hn). unfold substr.
  unfold representable in Hr. apply Z.ltb_lt in Hr. now rewrite Hr.
Qed.

(** ** The order of [std::string] *)

Lemma nat_of_ascii_inj x y : nat_of_ascii x = nat_of_ascii y -> x = y.
Proof.
  intros H. rewrite <- (ascii_nat_embedding x), <- (ascii_nat_embedding y).
  now rewrite H.
Qed.

Lemma string_compare_refl a : string_compare a a = Eq.
Proof.
  induction a as [|x a IH]; simpl; [reflexivity|].
  now rewrite Nat.compare_refl.
Qed.

Lemma string_compare_eq a b : string_compare a b = Eq -> a = b.
Proof.
  revert b. induction a as [|x a IH]; intros [|y b]; simpl; try discriminate.
  - reflexivity.
  - destruct (Nat.compare (nat_of_ascii x) (nat_of_ascii y)) eqn:E;
      try discriminate.
    intros H. apply Nat.compare_eq in E. apply nat_of_ascii_inj in E.
    f_equal; [exact E|now apply IH].
Qed.

Lemma string_compare_antisym a b :
  string_compare b a = CompOpp (string_compare a b).
Proof.
  revert b. induction a as [|x a IH]; intros [|y b]; simpl; try reflexivity.
  rewrite (Nat.compare_antisym (nat_of_ascii x) (nat_of_ascii y)).
  destruct (Nat.compare (nat_of_ascii x) (nat_of_ascii y)); simpl;
    [apply IH|reflexivity|reflexivity].
Qed.

Lemma string_lt_trans a b c : string_lt a b -> string_lt b c -> string_lt a c.
Proof.
  unfold string_lt. revert b c.
  induction a as [|x a IH]; intros [|y b] [|z c]; simpl; try discriminate;
    try reflexivity.
  destruct (Nat.compare (nat_of_ascii x) (nat_of_ascii y)) eqn:Exy;
    try discriminate;
    destruct (Nat.compare (nat_of_ascii y) (nat_of_ascii z)) eqn:Eyz;
    try discriminate; intros H1 H2.
  - apply Nat.compare_eq in Exy, Eyz. rewrite Exy, Eyz, Nat.compare_refl.
    now apply (IH b c).
  - apply Nat.compare_eq in Exy. now rewrite Exy, Eyz.
  - apply Nat.compare_eq in Eyz. now rewrite <- Eyz, Exy.
  - apply Nat.compare_lt_iff in Exy, Eyz.
    assert (E : Nat.compare (nat_of_ascii x) (nat_of_ascii z) = Lt)
      by (apply Nat.compare_lt_iff; lia).
    now rewrite E.
Qed.

Lemma string_lt_irrefl a : ~ string_lt a a.
Proof. unfold string_lt. now rewrite string_compare_refl. Qed.

Lemma string_compare_gt a b : string_compare a b = Gt -> string_lt b a.
Proof.
  intros H. unfold string_lt. now rewrite string_compare_antisym, H.
Qed.

Lemma string_eqb_eq a b : string_eqb a b = true <-> a = b.
Proof.
  unfold string_eqb. split.
  - destruct (string_compare a b) eqn:E; try discriminate.
    intros _. now apply string_compare_eq.
  - intros ->. now rewrite string_compare_refl.
Qed.

(** ** The map *)

Lemma sorted_map_inv k v m :
  sorted_map ((k, v) :: m) ->
  sorted_map m /\ Forall (string_lt k) (map fst m).
Proof. unfold sorted_map. simpl. intros H. now inversion H. Qed.

Lemma map_find_below k m :
  Forall (string_lt k) (map fst m) -> map_find k m = None.
Proof.
  destruct m as [|[k0 v0] m]; simpl; [reflexivity|].
  intros H. inversion H as [|? ? Hk _]. unfold string_lt in Hk. now rewrite Hk.
Qed.

Lemma map_find_In k v m :
  sorted_map m -> (map_find k m = Some v <-> In (k, v) m).
Proof.
  induction m as [|[k0 v0] m IH]; simpl; intros Hs.
  - split; [discriminate|tauto].
  - apply sorted_map_inv in Hs. destruct Hs as [Hs Hall].
    destruct (string_compare k k0) eqn:E.
    + apply string_compare_eq in E. subst k0. split.
      * intros [= ->]. now left.
      * intros [[= ->]|Hin]; [reflexivity|].
        exfalso. rewrite Forall_forall in Hall.
        apply (string_lt_irrefl k), Hall.
        change k with (fst (k, v)). now apply in_map.
    + split; [discriminate|]. intros [[= -> ->]|Hin].
      * now rewrite string_compare_refl in E.
      * exfalso. rewrite Forall_forall in Hall.
        assert (Hlt : string_lt k0 k)
          by (apply Hall; change k with (fst (k, v)); now apply in_map).
        apply (string_lt_irrefl k). now apply (string_lt_trans k k0 k).
    + rewrite (IH Hs). split; [now right|]. intros [[= -> ->]|Hin].
      * now rewrite string_compare_refl in E.
      * exact Hin.
Qed.

Lemma map_put_keys k v m x :
  In x (map fst (map_put k v m)) -> x = k \/ In x (map fst m).
Proof.
  induction m as [|[k0 v0] m IH]; simpl.
  - intros [<-|[]]. now left.
  - destruct (string_compare k k0) eqn:E; simpl.
    + apply string_compare_eq in E. subst k0. intros [<-|Hin]; auto.
    + intros [<-|[<-|Hin]]; auto.
    + intros [<-|Hin]; [auto|]. destruct (IH Hin); auto.
Qed.

Lemma map_put_sorted k v m : sorted_map m -> sorted_map (map_put k v m).
Proof.
  induction m as [|[k0 v0] m IH]; simpl; intros Hs.
  - repeat constructor.
  - pose proof Hs as Hs0. apply sorted_map_inv in Hs. destruct Hs as [Hs Hall].
    destruct (string_compare k k0) eqn:E.
    + apply string_compare_eq in E. subst k0. exact Hs0.
    + unfold sorted_map. simpl. constructor; [exact Hs0|].
      constructor; [exact E|].
      eapply Forall_impl; [|exact Hall].
      intros a Ha. now apply (string_lt_trans k k0 a).
    + unfold sorted_map. simpl. constructor; [now apply IH|].
      apply Forall_forall. intros x Hx.
      destruct (map_put_keys _ _ _ _ Hx) as [->|Hin].
      * now apply string_compare_gt.
      * rewrite Forall_forall in Hall. now apply Hall.
Qed.

Lemma map_find_put k v m k' :
  sorted_map m ->
  map_find k' (map_put k v m) =
    if string_eqb k' k then Some v else map_find k' m.
Proof.
  unfold string_eqb.
  induction m as [|[k0 v0] m IH]; simpl; intros Hs.
  - now destruct (string_compare k' k).
  - apply sorted_map_inv in Hs. destruct Hs as [Hs Hall].
    destruct (string_compare k k0) eqn:E; simpl.
    + apply string_compare_eq in E. subst k0.
      now destruct (string_compare k' k).
    + destruct (string_compare k' k) eqn:E'; try reflexivity.
      assert (H : string_lt k' k0) by now apply (string_lt_trans k' k k0).
      unfold string_lt in H. now rewrite H.
    + apply string_compare_gt in E.
      destruct (string_compare k' k0) eqn:E0.
      * apply string_compare_eq in E0. subst k0.
        unfold string_lt in E. now rewrite E.
      * assert (H : string_lt k' k) by now apply (string_lt_trans k' k0 k).
        unfold string_lt in H. now rewrite H.
      * now apply IH.
Qed.

(** A map is determined by its lookups. *)
Lemma map_ext m1 m2 :
  sorted_map m1 -> sorted_map m2 ->
  (forall k, map_find k m1 = map_find k m2) -> m1 = m2.
Proof.
  revert m2. induction m1 as [|[k1 v1] m1 IH]; intros [|[k2 v2] m2] H1 H2 He.
  - reflexivity.
  - specialize (He k2). simpl in He.
    now rewrite string_compare_refl in He.
  - specialize (He k1). simpl in He.
    now rewrite string_compare_refl in He.
  - pose proof (He k1) as E1. pose proof (He k2) as E2.
    pose proof H1 as H1'. pose proof H2 as H2'.
    apply sorted_map_inv in H1'. destruct H1' as [Hs1 Hall1].
    apply sorted_map_inv in H2'. destruct H2' as [Hs2 Hall2].
    assert (Hk : k1 = k2).
    { simpl in E1, E2. rewrite string_compare_refl in E1, E2.
      destruct (string_compare k1 k2) eqn:E12.
      - now apply string_compare_eq.
      - discriminate.
      - rewrite string_compare_antisym, E12 in E2. simpl in E2. discriminate. }
    subst k2. simpl in E1. rewrite string_compare_refl in E1.
    injection E1 as ->. f_equal. apply IH; try assumption.
    intros k. specialize (He k). simpl in He.
    destruct (string_compare k k1) eqn:E.
    + apply string_compare_eq in E. subst k.
      now rewrite !map_find_below.
    + rewrite !map_find_below; [reflexivity| |].
      * eapply Forall_impl; [|exact Hall2].
        intros a Ha. now apply (string_lt_trans k k1 a).
      * eapply Forall_impl; [|exact Hall1].
        intros a Ha. now apply (string_lt_trans k k1 a).
    + exact He.
Qed.

(** ** The stack aggregator *)

Lemma get_sample_count_range s c :
  get_sample_count s = Ret c -> 0 <= c < SizeT.modulus.
Proof.
  unfold get_sample_count. intros H. inv_bind H.
  destruct (atoi a); [|discriminate]. injection H as <-. apply wrap_range.
Qed.

Lemma count_parsed s c : get_sample_count s = Ret c -> count s = c.
Proof. unfold count. now intros ->. Qed.

Lemma build_step_eq m line :
  build_step m line =
    c <- get_sample_count line ;;
    Ret (map_put (leaf line)
           match map_find (leaf line) m with
           | Some (n, lines) => (SizeT.add n c, lines ++ [line])
           | None => (c, [line])
           end m).
Proof.
  unfold build_step. rewrite get_lowest_stack_leaf. simpl.
  destruct (map_find (leaf line) m) as [[n lines]|]; reflexivity.
Qed.

Lemma has_leaf_leaf line : has_leaf (leaf line) line = true.
Proof. unfold has_leaf. now apply string_eqb_eq. Qed.

Lemma group_of_snoc lines line k :
  group_of (lines ++ [line]) k =
    if string_eqb (leaf line) k then group_of lines k ++ [line]
    else group_of lines k.
Proof.
  unfold group_of, has_leaf. rewrite filter_app. simpl.
  destruct (string_eqb (leaf line) k); [reflexivity|apply app_nil_r].
Qed.

Lemma group_total_snoc members line :
  group_total (members ++ [line]) = SizeT.add (group_total members) (count line).
Proof.
  unfold group_total, SizeT.add, SizeT.wrap.
  rewrite map_app, fold_right_app. simpl.
  assert (E : forall l a, fold_right Z.add a l = fold_right Z.add 0 l + a).
  { induction l as [|x l IH]; intros a; simpl; [lia|]. rewrite IH. lia. }
  rewrite E, Z.add_0_r. now rewrite Zplus_mod_idemp_l.
Qed.

Lemma group_total_single line c :
  get_sample_count line = Ret c -> group_total [line] = c.
Proof.
  intros H. unfold group_total. simpl. rewrite (count_parsed _ _ H), Z.add_0_r.
  apply wrap_small. now apply get_sample_count_range with line.
Qed.

Lemma build_step_inv done m line m' :
  aggregates done m -> build_step m line = Ret m' ->
  parsed line /\ aggregates (done ++ [line]) m'.
Proof.
  intros [Hs Hf] H. rewrite build_step_eq in H. inv_bind H.
  rename a into c. injection H as <-. split; [now exists c|].
  split; [now apply map_put_sorted|].
  intros k. rewrite (map_find_put _ _ _ _ Hs). unfold aggregated.
  rewrite group_of_snoc. rewrite (Hf (leaf line)). unfold aggregated.
  destruct (string_eqb k (leaf line)) eqn:E.
  - apply string_eqb_eq in E. subst k.
    rewrite (proj2 (string_eqb_eq _ _) eq_refl).
    destruct (group_of done (leaf line)) as [|x members] eqn:G.
    + simpl. now rewrite (group_total_single _ _ Ha).
    + change ((x :: members) ++ [line]) with (x :: (members ++ [line])).
      cbv iota.
      change (x :: (members ++ [line])) with ((x :: members) ++ [line]).
      rewrite group_total_snoc, (count_parsed _ _ Ha). reflexivity.
  - assert (E' : string_eqb (leaf line) k = false).
    { destruct (string_eqb (leaf line) k) eqn:E'; [|reflexivity].
      apply string_eqb_eq in E'. subst k.
      now rewrite (proj2 (string_eqb_eq _ _) eq_refl) in E. }
    rewrite E'. apply Hf.
Qed.

Lemma build_loop_inv lines :
  forall done m m',
    aggregates done m -> build_loop lines m = Ret m' ->
    Forall parsed lines /\ aggregates (done ++ lines) m'.
Proof.
  induction lines as [|line rest IH]; simpl; intros done m m' Hagg H.
  - injection H as <-. rewrite app_nil_r. now split.
  - inv_bind H. destruct (build_step_inv _ _ _ _ Hagg Ha) as [Hp Hagg'].
    destruct (IH _ _ _ Hagg' H) as [Hall Hfin].
    rewrite <- app_assoc in Hfin. simpl in Hfin. split; [|exact Hfin].
    now constructor.
Qed.

Lemma aggregates_nil : aggregates [] [].
Proof. split; [constructor|reflexivity]. Qed.

(** The map [build_stack_map] returns binds every leaf of the input to the
    lines that share it, in file order, and to the sum of their counts. *)
Lemma build_stack_map_aggregates lines m :
  build_stack_map (Some lines) = Ret m ->
  Forall parsed lines /\ aggregates lines m.
Proof.
  simpl. intros H. now apply (build_loop_inv lines [] [] m aggregates_nil).
Qed.

Lemma build_loop_total lines :
  Forall parsed lines -> forall m, exists m', build_loop lines m = Ret m'.
Proof.
  induction 1 as [|line rest [c Hc] _ IH]; intros m; simpl.
  - now exists m.
  - rewrite build_step_eq, Hc. simpl. apply IH.
Qed.

Lemma aggregates_unique lines m1 m2 :
  aggregates lines m1 -> aggregates lines m2 -> m1 = m2.
Proof.
  intros [S1 F1] [S2 F2]. apply map_ext; try assumption.
  intros k. now rewrite F1, F2.
Qed.

(** [build_stack_map] returns exactly the aggregation, whenever every line of
    the file has a count. *)
Lemma build_stack_map_complete lines m :
  Forall parsed lines -> aggregates lines m ->
  build_stack_map (Some lines) = Ret m.
Proof.
  intros Hp Hagg. destruct (build_loop_total lines Hp []) as [m' Hm'].
  simpl. rewrite Hm'. f_equal.
  apply (aggregates_unique lines); [|exact Hagg].
  now apply (build_loop_inv lines [] [] m' aggregates_nil).
Qed.

(** The bindings of an aggregation. *)
Lemma aggregates_binding lines m k n members :
  aggregates lines m -> In (k, (n, members)) m ->
  members = group_of lines k /\ members <> [] /\ n = group_total members.
Proof.
  intros [Hs Hf] Hin. apply (map_find_In _ _ _ Hs) in Hin.
  rewrite Hf in Hin. unfold aggregated in Hin.
  destruct (group_of lines k) as [|x g]; [discriminate|].
  injection Hin as <- <-. repeat split. discriminate.
Qed.

(** ** Counts that do not parse *)

Lemma count_token_split front token :
  ~ In space token -> count_token (front ++ space :: token) = token.
Proof.
  intros Hn. unfold count_token. rewrite (rindex_app space front token Hn).
  change (S (length front)) with (1 + length front)%nat.
  rewrite <- skipn_skipn, skipn_app, skipn_all, Nat.sub_diag. reflexivity.
Qed.

Lemma digits_value_no_digit acc ds :
  match ds with c :: _ => isdigit c | [] => false end = false ->
  digits_value acc ds = acc.
Proof. destruct ds as [|c ds]; simpl; [reflexivity|]. now intros ->. Qed.

Lemma atoi_no_integer token :
  leading_integer token = false -> atoi token = Some 0.
Proof.
  unfold leading_integer, atoi.
  destruct (split_sign (skip_space token)) as [neg ds]. simpl.
  intros H. rewrite (digits_value_no_digit 0 ds H). now destruct neg.
Qed.

(** C8.  A line whose trailing count token (the text after its last space)
    does not start with an integer gets the count zero: [get_sample_count]
    returns [0], it does not throw. *)
Theorem get_sample_count_unparsable_is_zero (line : cstring) :
  representable line ->
  In space line ->
  leading_integer (count_token line) = false ->
  get_sample_count line = Ret 0.
Proof.
  intros Hr Hin Hno.
  destruct (last_occurrence space line Hin) as (front & token & E & Hn).
  rewrite E, (count_token_split front token Hn) in Hno.
  rewrite (get_sample_count_token line front token Hr E Hn).
  assert (Ha : atoi (space :: token) = Some 0).
  { apply atoi_no_integer. unfold leading_integer in *. exact Hno. }
  now rewrite Ha.
Qed.

Lemma get_sample_count_unparsable_is_zero_witness :
  get_sample_count (str "main;foo;bar x10") = Ret 0.
Proof.
  apply get_sample_count_unparsable_is_zero.
  - unfold representable. reflexivity.
  - simpl. tauto.
  - reflexivity.
Defined.

(** ** The significance filter *)

Lemma filter_visit_spec total c pats acc t acc' :
  filter_visit total c pats acc t = Ret acc' ->
  acc' = if passes total c pats t then acc ++ [snd t] else acc.
Proof.
  unfold filter_visit, passes, shown.
  destruct (above_cutoff rnd (fst (snd t)) total c); simpl;
    [|now intros [= <-]].
  destruct pats as [|p pats]; [now intros [= <-]|].
  destruct (snd (snd t)) as [|first rest]; [discriminate|].
  rewrite get_lowest_stack_leaf. cbn [bind].
  destruct (match_any (leaf first) (p :: pats)) as [b| | |];
    simpl; try discriminate.
  now intros [= <-].
Qed.

Lemma filter_loop_spec total c pats bindings :
  forall acc out,
    filter_loop total c pats bindings acc = Ret out ->
    out = acc ++ map snd (filter (passes total c pats) bindings).
Proof.
  induction bindings as [|t rest IH]; simpl; intros acc out H.
  - injection H as <-. now rewrite app_nil_r.
  - inv_bind H. apply filter_visit_spec in Ha. subst a.
    rewrite (IH _ _ H).
    destruct (passes total c pats t); [|reflexivity].
    simpl. now rewrite <- app_assoc.
Qed.

(** When [filter_stack] returns, it returns the values of the bindings that
    pass both tests, in the order of the map. *)
Lemma filter_stack_retained m c pats out :
  filter_stack m c pats = Ret out -> out = map snd (retained m c pats).
Proof. intros H. now apply filter_loop_spec in H. Qed.


(** ** Lines without a count *)

Lemma get_sample_count_no_exit line code : get_sample_count line <> Exit code.
Proof.
  unfold get_sample_count, substr.
  destruct (size line <? find_last_of line space); simpl; [discriminate|].
  destruct (atoi _); discriminate.
Qed.

Lemma build_loop_throws pre line post e :
  Forall (fun x => get_sample_count x <> Undefined) pre ->
  get_sample_count line = Throw e ->
  forall m, exists e', build_loop (pre ++ line :: post) m = Throw e'.
Proof.
  intros Hpre Hline. induction Hpre as [|x pre Hx _ IH]; intros m; simpl.
  - rewrite build_step_eq, Hline. simpl. now exists e.
  - rewrite build_step_eq.
    destruct (get_sample_count x) as [c|e'|code|] eqn:E; simpl.
    + apply IH.
    + now exists e'.
    + now destruct (get_sample_count_no_exit x code).
    + contradiction.
Qed.

(** C10.  On a line without a space [get_sample_count] returns no value: it
    throws [std::out_of_range].  A file that holds such a line, after lines
    whose counts are defined, ends the run in the handler of [main] with exit
    code 1 and nothing written. *)
Theorem line_without_space_aborts (line : cstring) :
  representable line ->
  ~ In space line ->
  get_sample_count line = Throw out_of_range /\
  forall pre post cutoff_percentage stack_limit regexes_to_show out_file_opens,
    Forall (fun x => get_sample_count x <> Undefined) pre ->
    main (Some (pre ++ line :: post)) cutoff_percentage stack_limit
         regexes_to_show out_file_opens
    = Exited 1 None.
Proof.
  intros Hr Hn. pose proof (get_sample_count_no_space line Hr Hn) as Hthrow.
  split; [exact Hthrow|].
  intros pre post c limit pats opens Hpre.
  destruct (build_loop_throws pre line post _ Hpre Hthrow []) as [e' He'].
  unfold main, build_stack_map. now rewrite He'.
Qed.

(** ** Order of the output *)

Lemma sorted_filter (P : cstring * stack_entry -> bool) m :
  sorted_map m -> sorted_map (filter P m).
Proof.
  unfold sorted_map. induction m as [|[k v] m IH]; simpl; intros H.
  - constructor.
  - inversion H as [|? ? Hs Hall]. subst.
    destruct (P (k, v)); simpl; [|now apply IH].
    constructor; [now apply IH|].
    rewrite Forall_forall in *. intros x Hx. apply Hall.
    rewrite in_map_iff in *. destruct Hx as (t & <- & Ht).
    exists t. split; [reflexivity|]. now apply filter_In in Ht.
Qed.

Lemma group_of_leaf lines k x : In x (group_of lines k) -> leaf x = k.
Proof.
  unfold group_of, has_leaf. intros H. apply filter_In in H.
  now apply string_eqb_eq.
Qed.

(** In an aggregation the first member of a group names the group. *)
Lemma aggregates_first_member lines m k n members :
  aggregates lines m -> In (k, (n, members)) m ->
  leaf (hd [] members) = k.
Proof.
  intros Hagg Hin.
  destruct (aggregates_binding _ _ _ _ _ Hagg Hin) as (E & Hne & _).
  apply (group_of_leaf lines). rewrite <- E.
  destruct members; [contradiction|now left].
Qed.

Lemma retained_incl m c pats t : In t (retained m c pats) -> In t m.
Proof. unfold retained. intros H. now apply filter_In in H. Qed.

Lemma retained_names lines m c pats :
  aggregates lines m ->
  map (fun e => leaf (hd [] (snd e))) (map snd (retained m c pats))
  = map fst (retained m c pats).
Proof.
  intros Hagg. rewrite map_map. apply map_ext_in.
  intros [k [n members]] Hin. apply retained_incl in Hin. simpl.
  now apply (aggregates_first_member lines m k n members).
Qed.

(** C7.  The groups that [filter_stack] returns come in increasing
    lexicographic order of their leaf-frame names; the members of each group
    are the lines of the input with that leaf, in file order; the writer
    emits the members group after group, line after line. *)
Theorem output_order_is_deterministic
  (lines : list cstring) (m : stack_map_t) (cutoff_percentage : double)
  (regexes_to_show : list cstring) (out : list stack_entry) :
  build_stack_map (Some lines) = Ret m ->
  filter_stack m cutoff_percentage regexes_to_show = Ret out ->
  StronglySorted string_lt (map (fun e => leaf (hd [] (snd e))) out) /\
  (forall e, In e out -> snd e = group_of lines (leaf (hd [] (snd e)))) /\
  write_filtered_stack_to_file out true = Ret (concat (map snd out)).
Proof.
  intros Hb Hf. apply build_stack_map_aggregates in Hb.
  destruct Hb as [_ Hagg]. apply filter_stack_retained in Hf. subst out.
  repeat split.
  - rewrite (retained_names lines m _ _ Hagg).
    apply sorted_filter. apply Hagg.
  - intros e He. apply in_map_iff in He.
    destruct He as ([k [n members]] & <- & Hin). apply retained_incl in Hin.
    simpl. rewrite (aggregates_first_member lines m k n members Hagg Hin).
    now destruct (aggregates_binding _ _ _ _ _ Hagg Hin).
Qed.

(** ** Malformed patterns *)

Lemma match_any_reaches frame pre bad post :
  regex_compile bad = None ->
  (forall p e, In p pre -> regex_compile p = Some e ->
               regex_match e frame = false) ->
  match_any frame (pre ++ bad :: post) = Throw regex_error.
Proof.
  intros Hbad. induction pre as [|p pre IH]; simpl; intros Hpre.
  - now rewrite Hbad.
  - destruct (regex_compile p) as [e|] eqn:E; [|reflexivity].
    rewrite (Hpre p e (or_introl eq_refl) E).
    apply IH. intros q e' Hq. apply Hpre. now right.
Qed.

Lemma match_any_outcome frame pats :
  (exists b, match_any frame pats = Ret b) \/
  match_any frame pats = Throw regex_error.
Proof.
  induction pats as [|p pats IH]; simpl.
  - left. now exists false.
  - destruct (regex_compile p) as [e|]; [|now right].
    destruct (regex_match e frame); [left; now exists true|exact IH].
Qed.

Lemma filter_visit_outcome total c pats acc t :
  snd (snd t) <> [] ->
  (exists acc', filter_visit total c pats acc t = Ret acc') \/
  filter_visit total c pats acc t = Throw regex_error.
Proof.
  intros Hne. unfold filter_visit.
  destruct (above_cutoff rnd (fst (snd t)) total c); [|left; eauto].
  destruct pats as [|p pats]; [left; eauto|].
  destruct (snd (snd t)) as [|first rest]; [contradiction|].
  rewrite get_lowest_stack_leaf. cbn [bind].
  destruct (match_any_outcome (leaf first) (p :: pats)) as [[b ->]| ->];
    simpl; [left; eauto|now right].
Qed.

Lemma filter_loop_throws total c pats before t after :
  Forall (fun x => snd (snd x) <> []) before ->
  above_cutoff rnd (fst (snd t)) total c = true ->
  match_any (leaf (hd [] (snd (snd t)))) pats = Throw regex_error ->
  snd (snd t) <> [] ->
  forall acc,
    filter_loop total c pats (before ++ t :: after) acc = Throw regex_error.
Proof.
  intros Hbefore Habove Hthrow Hne.
  induction Hbefore as [|x before Hx _ IH]; intros acc; cbn [app filter_loop].
  - unfold filter_visit. rewrite Habove.
    destruct pats as [|p pats]; [discriminate|].
    destruct (snd (snd t)) as [|first rest]; [contradiction|].
    rewrite get_lowest_stack_leaf. cbn [bind]. cbn [hd] in Hthrow.
    now rewrite Hthrow.
  - destruct (filter_visit_outcome total c pats acc x Hx) as [[acc' ->]| ->].
    + simpl. apply IH.
    + reflexivity.
Qed.

Lemma aggregates_members_nonempty lines m :
  aggregates lines m -> Forall (fun x => snd (snd x) <> []) m.
Proof.
  intros Hagg. apply Forall_forall. intros [k [n members]] Hin. simpl.
  now destruct (aggregates_binding _ _ _ _ _ Hagg Hin) as (_ & Hne & _).
Qed.

(** ** A total of zero *)

Lemma total_samples_zero m :
  (forall t, In t m -> fst (snd t) = 0) -> total_samples_of m = 0.
Proof.
  unfold total_samples_of. intros H.
  assert (G : forall l : stack_map_t,
              (forall t, In t l -> fst (snd t) = 0) ->
              fold_left (fun state element =>
                           SizeT.add state (fst (snd element))) l 0 = 0).
  { induction l as [|t l IH]; simpl; intros Hl; [reflexivity|].
    rewrite (Hl t (or_introl eq_refl)). change (SizeT.add 0 0) with 0.
    apply IH. intros u Hu. apply Hl. now right. }
  now apply G.
Qed.

Lemma share_zero_zero : exact_on rnd 0 -> share rnd 0 0 = NaN.
Proof.
  intros (q & Hq & Hz). unfold share, of_size_t, ddiv. rewrite Hq.
  apply Qeq_bool_iff in Hz. change (inject_Z 0) with 0%Q in Hz.
  now rewrite Hz.
Qed.

Lemma filter_loop_none total c pats bindings :
  (forall t, In t bindings ->
             above_cutoff rnd (fst (snd t)) total c = false) ->
  forall acc, filter_loop total c pats bindings acc = Ret acc.
Proof.
  induction bindings as [|t rest IH]; simpl; intros H acc; [reflexivity|].
  unfold filter_visit. rewrite (H t (or_introl eq_refl)). simpl.
  apply IH. intros u Hu. apply H. now right.
Qed.

(** C2, as the code has it.  When every group has the count zero (the empty
    map is such a map) the total is zero and the filter reports nothing: each
    quotient is [0.0 / 0.0], NaN, no comparison with NaN holds, and the filter
    returns the empty sequence, whatever the cutoff and the patterns.  Every
    run on a file that aggregates to such a map ends with exit code 0 and an
    empty output file, whatever the limit, when the output file opens. *)
Theorem zero_total_is_not_reported
  (m : stack_map_t) (cutoff_percentage : double)
  (regexes_to_show : list cstring) :
  exact_on rnd 0 ->
  (forall t, In t m -> fst (snd t) = 0) ->
  total_samples_of m = 0 /\
  filter_stack m cutoff_percentage regexes_to_show = Ret [] /\
  forall (lines : list cstring) (stack_limit : Z),
    build_stack_map (Some lines) = Ret m ->
    main (Some lines) cutoff_percentage stack_limit regexes_to_show true
    = Exited 0 (Some []).
Proof.
  intros Hz Hall. pose proof (total_samples_zero m Hall) as Ht.
  assert (Hf : filter_stack m cutoff_percentage regexes_to_show = Ret []).
  { unfold filter_stack. rewrite Ht.
    apply filter_loop_none. intros t Hin. rewrite (Hall t Hin).
    unfold above_cutoff. now rewrite (share_zero_zero Hz). }
  split; [exact Ht|]. split; [exact Hf|].
  intros lines stack_limit Hb. unfold main. rewrite Hb. cbn [bind].
  rewrite Hf. cbn [bind]. unfold shrink_to_stack_limit.
  destruct (stack_limit =? 0); reflexivity.
Qed.

(** ** Truncation *)

Lemma find_cut_position stack n :
  forall cur, cut_position stack cur -> cut_position stack (find_cut stack n cur).
Proof.
  induction n as [|n IH]; simpl; intros cur H; [exact H|].
  destruct (cur =? SizeT.npos); [exact H|].
  apply IH. apply rfind_cases.
Qed.

(** A positive limit leaves the line as it is, when the loop ends at
    [npos], or keeps what follows the delimiter the loop ends at. *)
Lemma shrink_line_cut stack_limit stack :
  0 < stack_limit -> representable stack ->
  (find_cut stack (Z.to_nat stack_limit) (size stack) = SizeT.npos /\
   shrink_line stack_limit stack = Ret stack) \/
  exists l1 l2, stack = l1 ++ semicolon :: l2 /\
                find_cut stack (Z.to_nat stack_limit) (size stack) = size l1 /\
                shrink_line stack_limit stack = Ret l2.
Proof.
  intros Hpos Hr. unfold shrink_line.
  destruct (Z.to_nat stack_limit) as [|n] eqn:En; [lia|].
  cbn [find_cut]. unfold representable in Hr.
  destruct (size stack =? SizeT.npos) eqn:E; [apply Z.eqb_eq in E; lia|].
  set (start := rfind stack semicolon (SizeT.sub (size stack) 1)).
  destruct (find_cut_position stack n start (rfind_cases _ _ _))
    as [->|(l1 & l2 & E1 & ->)].
  - left. split; reflexivity.
  - right. exists l1, l2. split; [exact E1|]. split; [reflexivity|].
    assert (Hsz : size stack = size l1 + 1 + size l2)
      by (rewrite E1, size_app, size_cons; lia).
    pose proof (size_nonneg l1). pose proof (size_nonneg l2).
    destruct (size l1 =? SizeT.npos) eqn:E2; [apply Z.eqb_eq in E2; lia|].
    unfold SizeT.add. rewrite wrap_small
      by (unfold SizeT.npos in Hr; unfold SizeT.modulus in *; lia).
    replace (size l1 + 1) with (size (l1 ++ [semicolon]))
      by (rewrite size_app, size_cons; reflexivity).
    apply substr_to_end; [exact Hr|].
    rewrite E1, <- app_assoc. reflexivity.
Qed.

Lemma shrink_line_cases stack_limit stack :
  0 < stack_limit -> representable stack ->
  shrink_line stack_limit stack = Ret stack \/
  exists l1 l2, stack = l1 ++ semicolon :: l2 /\
                shrink_line stack_limit stack = Ret l2.
Proof.
  intros Hpos Hr.
  destruct (shrink_line_cut stack_limit stack Hpos Hr)
    as [[_ H]|(l1 & l2 & E & _ & H)]; [left; exact H|].
  right. exists l1, l2. split; assumption.
Qed.








(** On a line that starts with a delimiter the search never comes back
    empty, so the loop never ends at [npos]. *)
Lemma find_cut_leading rest n :
  representable (semicolon :: rest) ->
  forall cur, cur <> SizeT.npos ->
    find_cut (semicolon :: rest) n cur <> SizeT.npos.
Proof.
  intros Hr. induction n as [|n IH]; intros cur Hcur; cbn [find_cut];
    [exact Hcur|].
  destruct (cur =? SizeT.npos) eqn:E; [exact Hcur|].
  apply IH. unfold rfind. unfold representable in Hr.
  pose proof (size_nonneg rest) as Hrest. rewrite size_cons in *.
  destruct (1 + size rest =? 0) eqn:E0; [apply Z.eqb_eq in E0; lia|].
  pose proof (wrap_range (cur - 1)) as Hw. fold (SizeT.sub cur 1) in Hw.
  destruct (Z.to_nat (Z.min (1 + size rest - 1) (SizeT.sub cur 1) + 1))
    as [|k] eqn:Ek; [lia|].
  destruct (rindex semicolon (firstn (S k) (semicolon :: rest))) as [i|] eqn:Ei.
  - apply rindex_Some in Ei. destruct Ei as (l1 & l2 & El & <- & _).
    assert (Hlen : (length l1 < length (semicolon :: rest))%nat).
    { apply (f_equal (@length ascii)) in El.
      rewrite length_firstn, length_app in El. simpl in El. simpl. lia. }
    simpl in Hlen. unfold size in Hr. lia.
  - apply rindex_None in Ei. exfalso. apply Ei. now left.
Qed.

(** Such a line is cut whatever the limit, also when it holds fewer
    delimiters than the limit. *)
Lemma shrink_line_leading stack_limit rest :
  0 < stack_limit -> representable (semicolon :: rest) ->
  exists l1 l2, semicolon :: rest = l1 ++ semicolon :: l2 /\
                shrink_line stack_limit (semicolon :: rest) = Ret l2.
Proof.
  intros Hpos Hr.
  destruct (shrink_line_cut stack_limit _ Hpos Hr)
    as [[Hcut _]|(l1 & l2 & E & _ & H)];
    [exfalso|exists l1, l2; split; assumption].
  revert Hcut. apply find_cut_leading; [exact Hr|].
  unfold representable in Hr. lia.
Qed.

(** C5.  With [stack_limit = 0] the truncator returns the groups it was given:
    every group, member line and call path is unchanged. *)
Theorem shrink_to_stack_limit_zero (stacks_map : list stack_entry) :
  shrink_to_stack_limit stacks_map 0 = Ret stacks_map.
Proof. reflexivity. Qed.

(** C4, at a line that starts with the delimiter.  The line [";x 1"] holds one
    delimiter, fewer than the limit 2, and is truncated to ["x 1"] all the
    same: after the delimiter at position 0 is found, [current_position - 1]
    wraps to [npos] and [rfind] searches the whole line again. *)
Theorem shrink_line_leading_delimiter :
  count_occ ascii_dec (str ";x 1") semicolon = 1%nat /\
  find_cut (str ";x 1") 1 (size (str ";x 1")) = 0 /\
  SizeT.sub 0 1 = SizeT.npos /\
  rfind (str ";x 1") semicolon SizeT.npos = 0 /\
  shrink_line 2 (str ";x 1") = Ret (str "x 1") /\
  shrink_to_stack_limit [(1, [str ";x 1"])] 2 = Ret [(1, [str "x 1"])].
Proof. repeat split. Qed.

(** The same wrap-around drops frames that the limit allows: three frames,
    limit three, one frame left. *)
Example shrink_line_leading_delimiter_3 :
  shrink_line 3 (str ";a;b 1") = Ret (str "b 1").
Proof. reflexivity. Qed.

(** ** Counts through the pipeline *)

Lemma parsed_has_space line : representable line -> parsed line -> In space line.
Proof.
  intros Hr [c Hc]. destruct (in_dec ascii_dec space line) as [H|H]; [exact H|].
  rewrite (get_sample_count_no_space line Hr H) in Hc. discriminate.
Qed.

(** Cutting a line at a delimiter keeps its count, when no delimiter follows
    the last space. *)
Lemma count_after_cut line l1 l2 :
  representable line -> parsed line -> clean_token line ->
  line = l1 ++ semicolon :: l2 ->
  get_sample_count l2 = get_sample_count line.
Proof.
  intros Hr Hp Hclean E.
  destruct (last_occurrence space line (parsed_has_space line Hr Hp))
    as (front & token & Es & Hn).
  unfold clean_token in Hclean. rewrite Es, (count_token_split _ _ Hn) in Hclean.
  rewrite (get_sample_count_token line front token Hr Es Hn).
  assert (Hsplit : exists mid, l2 = mid ++ space :: token).
  { rewrite Es in E. symmetry in E. apply app_eq_app in E.
    destruct E as (l & [[E1 E2]|[E1 E2]]).
    - destruct l as [|x l]; simpl in E2;
        [unfold space, semicolon in E2; discriminate|].
      injection E2 as <- E2. exfalso. apply Hclean. rewrite E2.
      apply in_or_app. right. now left.
    - destruct l as [|x l]; simpl in E2;
        [unfold space, semicolon in E2; discriminate|].
      injection E2 as <- E2. exists l. exact E2. }
  destruct Hsplit as (mid & E2).
  apply get_sample_count_token with (front := mid); [|exact E2|exact Hn].
  unfold representable in *. subst line. rewrite size_app, size_cons in Hr.
  pose proof (size_nonneg l1). lia.
Qed.

Lemma shrink_line_count stack_limit line line' :
  0 < stack_limit -> representable line -> parsed line -> clean_token line ->
  shrink_line stack_limit line = Ret line' ->
  parsed line' /\ count line' = count line.
Proof.
  intros Hpos Hr Hp Hclean H.
  destruct (shrink_line_cases stack_limit line Hpos Hr)
    as [E|(l1 & l2 & E1 & E2)]; rewrite H in *.
  - injection E as ->. now split.
  - injection E2 as ->.
    pose proof (count_after_cut line l1 l2 Hr Hp Hclean E1) as Hc.
    split; [|unfold count; now rewrite Hc].
    destruct Hp as [c Hp]. exists c. now rewrite Hc.
Qed.

Lemma map_outcome_shrink_counts stack_limit members :
  0 < stack_limit ->
  Forall representable members -> Forall parsed members ->
  Forall clean_token members ->
  forall members',
    map_outcome (shrink_line stack_limit) members = Ret members' ->
    Forall parsed members' /\ map count members' = map count members.
Proof.
  intros Hpos. induction members as [|x members IH];
    intros Hr Hp Hc members' H; simpl in H.
  - injection H as <-. now split.
  - inv_bind H. rename a into x'. inv_bind H. rename a into rest.
    injection H as <-.
    inversion Hr; inversion Hp; inversion Hc; subst.
    destruct (shrink_line_count stack_limit x x') as [Hx Hcx]; try assumption.
    destruct (IH ltac:(assumption) ltac:(assumption) ltac:(assumption) rest)
      as [Hrest Hcrest]; [assumption|].
    split; [now constructor|]. simpl. now rewrite Hcx, Hcrest.
Qed.

Lemma group_of_incl lines k x : In x (group_of lines k) -> In x lines.
Proof. unfold group_of. intros H. now apply filter_In in H. Qed.

Lemma aggregates_consistent lines m k e :
  Forall parsed lines -> aggregates lines m -> In (k, e) m -> consistent e.
Proof.
  intros Hp Hagg Hin. destruct e as [n members].
  destruct (aggregates_binding _ _ _ _ _ Hagg Hin) as (E & _ & En).
  split; simpl; [|exact En].
  rewrite Forall_forall in *. intros x Hx. apply Hp.
  rewrite E in Hx. now apply group_of_incl in Hx.
Qed.

Lemma shrink_entries_counts stack_limit lines (kept : stack_map_t) :
  0 < stack_limit ->
  Forall representable lines -> Forall parsed lines ->
  Forall clean_token lines ->
  (forall k n members, In (k, (n, members)) kept ->
     members = group_of lines k /\ n = group_total members) ->
  forall shrunk,
    map_outcome (shrink_entry stack_limit) (map snd kept) = Ret shrunk ->
    Forall consistent shrunk /\
    Forall2 (fun e e' => fst e' = fst e /\
                         group_total (snd e') = group_total (snd e))
            (map snd kept) shrunk.
Proof.
  intros Hpos Hr Hp Hc. induction kept as [|[k [n members]] kept IH];
    intros Hkept shrunk H; simpl in H.
  - injection H as <-. split; constructor.
  - inv_bind H. rename a into e'. inv_bind H. rename a into rest.
    injection H as <-. unfold shrink_entry in Ha. simpl in Ha.
    inv_bind Ha. rename a into members'. injection Ha as <-.
    destruct (Hkept k n members (or_introl eq_refl)) as [Em En].
    assert (Hsub : forall x, In x members -> In x lines)
      by (intros x Hx; rewrite Em in Hx; now apply group_of_incl in Hx).
    assert (Hsel : forall P : cstring -> Prop,
               Forall P lines -> Forall P members).
    { intros P HP. rewrite Forall_forall in *. auto. }
    destruct (map_outcome_shrink_counts stack_limit members Hpos
                (Hsel _ Hr) (Hsel _ Hp) (Hsel _ Hc) members' Ha1)
      as [Hp' Hcount].
    assert (Ht : group_total members' = group_total members)
      by (unfold group_total; now rewrite Hcount).
    destruct (IH (fun k0 n0 m0 H0 => Hkept k0 n0 m0 (or_intror H0)) rest Ha0)
      as [Hcons Hall].
    split.
    + constructor; [|exact Hcons]. split; simpl; [exact Hp'|]. now rewrite Ht.
    + constructor; [|exact Hall]. simpl. now split.
Qed.

(** C9, as the code has it.  When no line of the input has a [';'] after its
    last space, the count of every group is the sum, in [size_t] arithmetic,
    of the counts of its members: in the map that [build_stack_map] returns,
    in the output of [filter_stack] and in the output of
    [shrink_to_stack_limit]; and the counts of the lines written for a
    retained group add up to the counts of the input lines with its leaf. *)
Theorem counts_are_preserved
  (lines : list cstring) (m : stack_map_t) (cutoff_percentage : double)
  (regexes_to_show : list cstring) (stack_limit : Z)
  (out shrunk : list stack_entry) :
  0 <= stack_limit ->
  Forall representable lines ->
  Forall clean_token lines ->
  build_stack_map (Some lines) = Ret m ->
  filter_stack m cutoff_percentage regexes_to_show = Ret out ->
  shrink_to_stack_limit out stack_limit = Ret shrunk ->
  (forall k e, In (k, e) m -> consistent e) /\
  Forall consistent out /\
  Forall consistent shrunk /\
  Forall2 (fun e e' =>
             fst e' = fst e /\
             group_total (snd e')
             = group_total (group_of lines (leaf (hd [] (snd e)))))
          out shrunk.
Proof.
  intros Hlimit Hr Hc Hb Hf Hs.
  destruct (build_stack_map_aggregates _ _ Hb) as [Hp Hagg].
  apply filter_stack_retained in Hf. subst out.
  assert (Hm : forall k e, In (k, e) m -> consistent e)
    by (intros k e; now apply aggregates_consistent with lines).
  assert (Hout : Forall consistent (map snd (retained m cutoff_percentage
                                               regexes_to_show))).
  { apply Forall_forall. intros e He. apply in_map_iff in He.
    destruct He as ([k e'] & <- & Hin). apply retained_incl in Hin.
    now apply (Hm k). }
  assert (Hgroups : forall k n members,
             In (k, (n, members)) (retained m cutoff_percentage regexes_to_show) ->
             members = group_of lines k /\ n = group_total members).
  { intros k n members Hin. apply retained_incl in Hin.
    now destruct (aggregates_binding _ _ _ _ _ Hagg Hin) as (E & _ & En). }
  assert (Hnames : Forall (fun e => snd e = group_of lines (leaf (hd [] (snd e))))
                          (map snd (retained m cutoff_percentage regexes_to_show))).
  { apply Forall_forall. intros e He. apply in_map_iff in He.
    destruct He as ([k [n members]] & <- & Hin). apply retained_incl in Hin.
    simpl. rewrite (aggregates_first_member lines m k n members Hagg Hin).
    now destruct (aggregates_binding _ _ _ _ _ Hagg Hin). }
  split; [exact Hm|]. split; [exact Hout|].
  unfold shrink_to_stack_limit in Hs.
  destruct (stack_limit =? 0) eqn:E0.
  - injection Hs as <-. split; [exact Hout|].
    clear - Hnames. induction Hnames as [|e l He _ IH]; constructor; [|exact IH].
    split; [reflexivity|]. now rewrite <- He.
  - apply Z.eqb_neq in E0.
    destruct (shrink_entries_counts stack_limit lines _ ltac:(lia) Hr Hp Hc
                Hgroups shrunk Hs) as [Hcons Hall].
    split; [exact Hcons|].
    clear - Hnames Hall. induction Hall as [|e e' l l' [H1 H2] _ IH];
      constructor.
    + inversion Hnames as [|? ? He _]. subst. split; [exact H1|].
      now rewrite H2, <- He.
    + apply IH. now inversion Hnames.
Qed.

(** ** The cutoff test *)



(** ** Monotone rounding *)

Lemma dle_trans a b c : dle a b -> dle b c -> dle a c.
Proof.
  destruct a as [| |x|], b as [| |y|], c as [| |z|]; simpl; try tauto.
  apply Qle_trans.
Qed.

Lemma dle_not_dgt a b : dle a b -> dgt a b = false.
Proof.
  destruct a as [| |x|], b as [| |y|]; simpl; try tauto.
  intros H. unfold Qltb. apply negb_false_iff. now apply Qle_bool_iff.
Qed.

Lemma dgt_monotone a b t : dle a b -> dgt a t = true -> dgt b t = true.
Proof.
  destruct a as [| |x|], b as [| |y|], t as [| |z|]; simpl; try tauto;
    try discriminate.
  unfold Qltb. intros Hle H. apply negb_true_iff in H. apply negb_true_iff.
  destruct (Qle_bool y z) eqn:E; [|reflexivity].
  apply Qle_bool_iff in E.
  assert (Hxz : Qle_bool x z = true)
    by (apply Qle_bool_iff; now apply Qle_trans with y).
  congruence.
Qed.


Section Rounding.

Hypothesis rounded : well_rounded rnd.

Lemma cast_range n :
  0 <= n <= 2 ^ 64 ->
  exists q, of_size_t rnd n = Fin q /\ (0 <= q)%Q /\ (1 <= n -> (1 <= q)%Q).
Proof.
  destruct rounded as (Hmono & (q0 & E0 & H0) & (q1 & E1 & H1) & (qm & Em & _)).
  intros [Hlo Hhi]. unfold of_size_t.
  pose proof (Hmono (inject_Z 0) (inject_Z n)) as Hl.
  pose proof (Hmono (inject_Z n) (inject_Z (2 ^ 64))) as Hu.
  rewrite <- Zle_Qle in Hl, Hu. specialize (Hl Hlo). specialize (Hu Hhi).
  rewrite E0 in Hl. rewrite Em in Hu.
  destruct (rnd (inject_Z n)) as [| |q|] eqn:E; simpl in Hl, Hu; try tauto.
  exists q. split; [reflexivity|]. split.
  - rewrite H0 in Hl. exact Hl.
  - intros Hn. pose proof (Hmono (inject_Z 1) (inject_Z n)) as H.
    rewrite <- Zle_Qle in H. specialize (H Hn). rewrite E1, E in H. simpl in H.
    rewrite H1 in H. exact H.
Qed.

Lemma cast_monotone n n' q q' :
  n <= n' -> of_size_t rnd n = Fin q -> of_size_t rnd n' = Fin q' ->
  (q <= q')%Q.
Proof.
  destruct rounded as (Hmono & _). unfold of_size_t. intros Hn E E'.
  pose proof (Hmono (inject_Z n) (inject_Z n')) as H.
  rewrite <- Zle_Qle in H. specialize (H Hn). now rewrite E, E' in H.
Qed.

Lemma Qeq_bool_pos q : (1 <= q)%Q -> Qeq_bool q 0 = false.
Proof.
  intros H. destruct (Qeq_bool q 0) eqn:E; [|reflexivity].
  apply Qeq_bool_iff in E. rewrite E in H. exfalso. apply H. reflexivity.
Qed.

(** A smaller total gives a share that is not smaller. *)
Lemma share_monotone n T T' :
  0 <= n <= 2 ^ 64 -> 1 <= T' -> T' <= T -> T <= 2 ^ 64 ->
  dle (share rnd n T) (share rnd n T').
Proof.
  intros Hn HT' Hle HT.
  destruct (cast_range n Hn) as (qn & En & Hqn & _).
  destruct (cast_range T ltac:(lia)) as (qT & ET & _ & HqT).
  destruct (cast_range T' ltac:(lia)) as (qT' & ET' & _ & HqT').
  specialize (HqT ltac:(lia)). specialize (HqT' HT').
  pose proof (cast_monotone T' T qT' qT Hle ET' ET) as Hq.
  unfold share, ddiv. rewrite En, ET, ET'.
  rewrite (Qeq_bool_pos qT HqT), (Qeq_bool_pos qT' HqT').
  destruct rounded as (Hmono & _). apply Hmono.
  assert (HposT : (0 < qT)%Q)
    by (apply Qlt_le_trans with 1%Q; [reflexivity|exact HqT]).
  assert (HposT' : (0 < qT')%Q)
    by (apply Qlt_le_trans with 1%Q; [reflexivity|exact HqT']).
  apply Qle_shift_div_l; [exact HposT'|].
  apply Qle_trans with (qn / qT * qT)%Q.
  - rewrite !(Qmult_comm (qn / qT)). apply Qmult_le_compat_r; [exact Hq|].
    apply Qle_shift_div_l; [exact HposT|]. now rewrite Qmult_0_l.
  - setoid_replace (qn / qT * qT)%Q with qn; [apply Qle_refl|].
    field. intros E. rewrite E in HposT. discriminate HposT.
Qed.

(** The bound of a non-negative cutoff is not below [rnd 0]. *)
Lemma cutoff_fraction_nonneg c :
  (0 <= c)%Q -> dle (rnd (inject_Z 0)) (cutoff_fraction rnd (Fin c)).
Proof.
  intros Hc.
  destruct rounded as (Hmono & (q0 & E0 & H0) & (q1 & E1 & H1) & _).
  pose proof (Hmono (inject_Z 0) (1 # 100)%Q ltac:(discriminate)) as Hl.
  pose proof (Hmono (1 # 100)%Q (inject_Z 1) ltac:(discriminate)) as Hu.
  unfold cutoff_fraction, d0_01, dmul.
  rewrite E0 in Hl. rewrite E1 in Hu.
  destruct (rnd (1 # 100)) as [| |q|]; simpl in Hl, Hu; try tauto.
  apply Hmono. change (inject_Z 0) with 0%Q.
  apply Qmult_le_0_compat; [|exact Hc]. now rewrite H0 in Hl.
Qed.

(** With a non-negative cutoff a group of count zero never passes. *)
Lemma passing_count_positive n T c :
  (0 <= c)%Q -> 0 <= n <= 2 ^ 64 -> 1 <= T <= 2 ^ 64 ->
  above_cutoff rnd n T (Fin c) = true -> 0 < n.
Proof.
  intros Hc Hn HT H.
  destruct (Z.eq_dec n 0) as [->|Hne]; [exfalso|lia].
  destruct (cast_range 0 ltac:(lia)) as (q0 & E0 & _).
  destruct (cast_range T ltac:(lia)) as (qT & ET & _ & HqT).
  specialize (HqT ltac:(lia)).
  destruct rounded as (Hmono & (q0' & E0' & H0') & _).
  unfold of_size_t in E0. rewrite E0 in E0'. injection E0' as <-.
  unfold above_cutoff in H.
  assert (Hs : dle (share rnd 0 T) (rnd (inject_Z 0))).
  { unfold share, ddiv, of_size_t. rewrite E0. unfold of_size_t in ET.
    rewrite ET, (Qeq_bool_pos qT HqT). rewrite <- E0. apply Hmono.
    rewrite H0'. change (inject_Z 0) with 0%Q.
    unfold Qdiv. rewrite Qmult_0_l. apply Qle_refl. }
  pose proof (dle_trans _ _ _ Hs (cutoff_fraction_nonneg c Hc)) as Hle.
  apply dle_not_dgt in Hle. congruence.
Qed.

End Rounding.

(** ** Filtering twice *)

Lemma total_samples_wrap m : total_samples_of m = SizeT.wrap (counts_sum m).
Proof.
  unfold total_samples_of, counts_sum.
  assert (G : forall (l : stack_map_t) acc,
             fold_left (fun state element =>
                          SizeT.add state (fst (snd element))) l (SizeT.wrap acc)
             = SizeT.wrap (acc + fold_right Z.add 0
                                   (map (fun t => fst (snd t)) l))).
  { induction l as [|t l IH]; intros acc; cbn [fold_left fold_right map].
    - now rewrite Z.add_0_r.
    - replace (SizeT.add (SizeT.wrap acc) (fst (snd t)))
        with (SizeT.wrap (acc + fst (snd t)))
        by (unfold SizeT.add, SizeT.wrap; now rewrite Zplus_mod_idemp_l).
      rewrite IH. f_equal. lia. }
  apply (G m 0).
Qed.

Lemma counts_sum_filter (P : cstring * stack_entry -> bool) (m : stack_map_t) :
  (forall t, In t m -> 0 <= fst (snd t)) ->
  0 <= counts_sum (filter P m) <= counts_sum m.
Proof.
  unfold counts_sum. induction m as [|t m IH]; simpl; intros H; [lia|].
  pose proof (H t (or_introl eq_refl)).
  specialize (IH (fun u Hu => H u (or_intror Hu))).
  destruct (P t); simpl; lia.
Qed.

Lemma counts_sum_member (m : stack_map_t) t :
  (forall u, In u m -> 0 <= fst (snd u)) -> In t m ->
  fst (snd t) <= counts_sum m.
Proof.
  unfold counts_sum. induction m as [|u m IH]; simpl; intros H Hin; [tauto|].
  pose proof (H u (or_introl eq_refl)).
  assert (0 <= fold_right Z.add 0 (map (fun t => fst (snd t)) m)).
  { pose proof (counts_sum_filter (fun _ => true) m
                  (fun v Hv => H v (or_intror Hv))) as G.
    unfold counts_sum in G. lia. }
  destruct Hin as [->|Hin]; [lia|].
  specialize (IH (fun v Hv => H v (or_intror Hv)) Hin). lia.
Qed.

Lemma aggregates_count_range lines m t :
  aggregates lines m -> In t m -> 0 <= fst (snd t) < SizeT.modulus.
Proof.
  destruct t as [k [n members]]. intros Hagg Hin.
  destruct (aggregates_binding _ _ _ _ _ Hagg Hin) as (_ & _ & ->).
  apply wrap_range.
Qed.

Lemma group_of_app l1 l2 k : group_of (l1 ++ l2) k = group_of l1 k ++ group_of l2 k.
Proof. unfold group_of. apply filter_app. Qed.

Lemma group_of_same members k :
  (forall x, In x members -> leaf x = k) -> group_of members k = members.
Proof.
  unfold group_of, has_leaf. induction members as [|x l IH]; simpl; intros H.
  - reflexivity.
  - rewrite (proj2 (string_eqb_eq _ _) (H x (or_introl eq_refl))).
    f_equal. apply IH. intros y Hy. apply H. now right.
Qed.

Lemma group_of_other members k k' :
  (forall x, In x members -> leaf x = k') -> k <> k' -> group_of members k = [].
Proof.
  unfold group_of, has_leaf. induction members as [|x l IH]; simpl; intros H Hne.
  - reflexivity.
  - destruct (string_eqb (leaf x) k) eqn:E.
    + apply string_eqb_eq in E. rewrite (H x (or_introl eq_refl)) in E.
      congruence.
    + apply IH; [|exact Hne]. intros y Hy. apply H. now right.
Qed.

Lemma aggregated_None lines k : aggregated lines k = None -> group_of lines k = [].
Proof. unfold aggregated. now destruct (group_of lines k). Qed.

(** A sorted map whose groups hold lines of their own leaf, with the right
    counts, is the aggregation of its lines. *)
Lemma self_aggregation (kept : stack_map_t) :
  sorted_map kept ->
  (forall k n members, In (k, (n, members)) kept ->
     members <> [] /\ (forall x, In x members -> leaf x = k) /\
     n = group_total members) ->
  aggregates (lines_of kept) kept.
Proof.
  intros Hs Hk. split; [exact Hs|].
  induction kept as [|[k0 [n0 mem0]] rest IH]; intros k; [reflexivity|].
  pose proof Hs as Hs'. apply sorted_map_inv in Hs'. destruct Hs' as [Hsr Hall].
  specialize (IH Hsr (fun k n m H => Hk k n m (or_intror H))).
  destruct (Hk k0 n0 mem0 (or_introl eq_refl)) as (Hne & Hleaf & Hn).
  unfold lines_of. simpl. fold (lines_of rest).
  unfold aggregated. rewrite group_of_app.
  destruct (string_compare k k0) eqn:E.
  - apply string_compare_eq in E. subst k0.
    rewrite (group_of_same mem0 k Hleaf).
    rewrite (aggregated_None (lines_of rest) k), app_nil_r
      by (rewrite <- IH; now apply map_find_below).
    destruct mem0; [contradiction|]. now rewrite Hn.
  - assert (Hneq : k <> k0)
      by (intros ->; now rewrite string_compare_refl in E).
    rewrite (group_of_other mem0 k k0 Hleaf Hneq). simpl.
    rewrite (aggregated_None (lines_of rest) k); [reflexivity|].
    rewrite <- IH. apply map_find_below.
    eapply Forall_impl; [|exact Hall].
    intros a Ha. now apply (string_lt_trans k k0 a).
  - assert (Hneq : k <> k0)
      by (intros ->; now rewrite string_compare_refl in E).
    rewrite (group_of_other mem0 k k0 Hleaf Hneq). simpl.
    rewrite IH. reflexivity.
Qed.

Lemma filter_visit_passes total c pats acc t :
  passes total c pats t = true ->
  filter_visit total c pats acc t = Ret (acc ++ [snd t]).
Proof.
  unfold passes, shown, filter_visit. intros H. apply andb_true_iff in H.
  destruct H as [-> H]. destruct pats as [|p pats]; [reflexivity|].
  destruct (snd (snd t)) as [|first rest]; [discriminate|].
  rewrite get_lowest_stack_leaf. cbn [bind].
  destruct (match_any (leaf first) (p :: pats)) as [b| | |]; try discriminate.
  simpl in H. subst b. reflexivity.
Qed.

Lemma filter_loop_all total c pats bindings :
  (forall t, In t bindings -> passes total c pats t = true) ->
  forall acc, filter_loop total c pats bindings acc
              = Ret (acc ++ map snd bindings).
Proof.
  induction bindings as [|t rest IH]; intros H acc; cbn [filter_loop map].
  - now rewrite app_nil_r.
  - rewrite (filter_visit_passes _ _ _ acc t (H t (or_introl eq_refl))).
    cbn [bind]. rewrite IH by (intros u Hu; apply H; now right).
    now rewrite <- app_assoc.
Qed.

Lemma lines_of_retained m c pats :
  lines_of (retained m c pats) = concat (map snd (map snd (retained m c pats))).
Proof. unfold lines_of. now rewrite map_map. Qed.

(** C6, as the code has it.  When the counts of the groups add up without
    wrap-around and the cutoff is a finite number that is not negative,
    aggregating the lines of the filter's output again and filtering them with
    the same cutoff and the same patterns returns the same groups: every
    total of the second pass is at most the one of the first, so no share
    gets smaller. *)
Theorem filter_twice
  (lines : list cstring) (m : stack_map_t) (cutoff : Q)
  (regexes_to_show : list cstring) (out : list stack_entry) :
  well_rounded rnd ->
  (0 <= cutoff)%Q ->
  counts_sum m < SizeT.modulus ->
  build_stack_map (Some lines) = Ret m ->
  filter_stack m (Fin cutoff) regexes_to_show = Ret out ->
  exists m',
    build_stack_map (Some (concat (map snd out))) = Ret m' /\
    filter_stack m' (Fin cutoff) regexes_to_show = Ret out.
Proof.
  intros Hrnd Hc Hsum Hb Hf.
  destruct (build_stack_map_aggregates _ _ Hb) as [Hp Hagg].
  apply filter_stack_retained in Hf. subst out.
  set (kept := retained m (Fin cutoff) regexes_to_show).
  assert (Hincl : forall t, In t kept -> In t m)
    by (intros t; apply retained_incl).
  assert (Hrange : forall t, In t m -> 0 <= fst (snd t))
    by (intros t Ht; now apply (aggregates_count_range lines m t Hagg)).
  (* the second aggregation returns the retained bindings *)
  assert (Hself : aggregates (lines_of kept) kept).
  { apply self_aggregation.
    - apply sorted_filter. apply Hagg.
    - intros k n members Hin. apply Hincl in Hin.
      destruct (aggregates_binding _ _ _ _ _ Hagg Hin) as (E & Hne & En).
      repeat split; try assumption.
      intros x Hx. rewrite E in Hx. now apply group_of_leaf in Hx. }
  assert (Hparsed : Forall parsed (lines_of kept)).
  { apply Forall_forall. intros x Hx. unfold lines_of in Hx.
    apply in_concat in Hx. destruct Hx as (l & Hl & Hx).
    apply in_map_iff in Hl. destruct Hl as ([k [n members]] & <- & Hin).
    apply Hincl in Hin. simpl in Hx.
    destruct (aggregates_binding _ _ _ _ _ Hagg Hin) as (E & _ & _).
    rewrite E in Hx. apply group_of_incl in Hx.
    rewrite Forall_forall in Hp. now apply Hp. }
  exists kept. unfold kept at 1. rewrite <- lines_of_retained. fold kept.
  split; [now apply build_stack_map_complete|].
  (* every retained binding passes again *)
  unfold filter_stack. rewrite (filter_loop_all _ _ _ kept); [reflexivity|].
  intros t Ht. pose proof Ht as Hpass. unfold kept, retained in Hpass.
  apply filter_In in Hpass. destruct Hpass as [Hin Hpass].
  unfold passes in *. apply andb_true_iff in Hpass.
  destruct Hpass as [Habove Hshown]. rewrite Hshown, andb_true_r.
  pose proof (counts_sum_filter
                (passes (total_samples_of m) (Fin cutoff) regexes_to_show)
                m Hrange) as Hkept.
  fold (retained m (Fin cutoff) regexes_to_show) in Hkept. fold kept in Hkept.
  pose proof (counts_sum_member kept t (fun u Hu => Hrange u (Hincl u Hu)) Ht)
    as Hmem.
  pose proof (counts_sum_member m t Hrange Hin) as Hmem'.
  pose proof (Hrange t Hin) as Hn.
  rewrite total_samples_wrap in *.
  rewrite wrap_small in Habove by lia. rewrite wrap_small by lia.
  assert (Hbound : SizeT.modulus = 2 ^ 64) by reflexivity.
  assert (Htotal : 1 <= counts_sum m).
  { destruct (Z.eq_dec (counts_sum m) 0) as [E0|]; [exfalso|lia].
    assert (En : fst (snd t) = 0) by lia.
    rewrite E0, En in Habove. unfold above_cutoff in Habove.
    destruct Hrnd as (_ & Hz & _).
    now rewrite (share_zero_zero Hz) in Habove. }
  assert (Hpos : 0 < fst (snd t)).
  { apply (passing_count_positive Hrnd (fst (snd t)) (counts_sum m) cutoff);
      try assumption; lia. }
  unfold above_cutoff in *.
  apply (dgt_monotone (share rnd (fst (snd t)) (counts_sum m))); [|exact Habove].
  apply share_monotone; try assumption; lia.
Qed.

(** * Further properties of the code *)

(** ** The leaf of a line *)

Lemma wrap_negative z :
  - SizeT.modulus <= z < 0 -> SizeT.wrap z = z + SizeT.modulus.
Proof.
  intros H. unfold SizeT.wrap.
  rewrite <- (Z_mod_plus_full z 1 SizeT.modulus), Z.mul_1_l.
  apply Z.mod_small. lia.
Qed.

Lemma after_last_split c l1 l2 :
  ~ In c l2 -> after_last c (l1 ++ c :: l2) = l2.
Proof.
  intros Hn. unfold after_last. rewrite (rindex_app c l1 l2 Hn).
  change (S (length l1)) with (1 + length l1)%nat.
  rewrite <- skipn_skipn, skipn_app, skipn_all, Nat.sub_diag. reflexivity.
Qed.

Lemma before_last_split c l1 l2 :
  ~ In c l2 -> before_last c (l1 ++ c :: l2) = l1.
Proof.
  intros Hn. unfold before_last. rewrite (rindex_app c l1 l2 Hn).
  rewrite firstn_app, firstn_all, Nat.sub_diag. simpl. apply app_nil_r.
Qed.

Lemma after_last_absent c s : ~ In c s -> after_last c s = s.
Proof.
  intros Hn. unfold after_last. apply rindex_None in Hn. now rewrite Hn.
Qed.

Lemma before_last_absent c s : ~ In c s -> before_last c s = s.
Proof.
  intros Hn. unfold before_last. apply rindex_None in Hn. now rewrite Hn.
Qed.

(** [substr] with a length that reaches the end or beyond. *)
Lemma substr_clip l1 l2 n :
  size l2 <= n -> substr (l1 ++ l2) (size l1) n = Ret l2.
Proof.
  intros Hn. unfold substr. rewrite size_app.
  pose proof (size_nonneg l1) as H1. pose proof (size_nonneg l2) as H2.
  destruct (size l1 + size l2 <? size l1) eqn:E; [apply Z.ltb_lt in E; lia|].
  f_equal.
  replace (Z.to_nat (size l1)) with (length l1) by (unfold size; lia).
  rewrite skipn_app, skipn_all, Nat.sub_diag. cbn [skipn app].
  rewrite Z.min_r by lia.
  replace (Z.to_nat (size l1 + size l2 - size l1)) with (length l2)
    by (unfold size; lia).
  apply firstn_all.
Qed.

(** [substr] with a length that stops inside the string. *)
Lemma substr_middle l1 m t :
  substr (l1 ++ m ++ t) (size l1) (size m) = Ret m.
Proof.
  unfold substr. rewrite !size_app.
  pose proof (size_nonneg l1) as H1. pose proof (size_nonneg m) as H2.
  pose proof (size_nonneg t) as H3.
  destruct (size l1 + (size m + size t) <? size l1) eqn:E;
    [apply Z.ltb_lt in E; lia|].
  f_equal.
  replace (Z.to_nat (size l1)) with (length l1) by (unfold size; lia).
  rewrite skipn_app, skipn_all, Nat.sub_diag. cbn [skipn app].
  rewrite Z.min_l by lia.
  replace (Z.to_nat (size m)) with (length m) by (unfold size; lia).
  rewrite firstn_app, firstn_all, Nat.sub_diag. simpl. apply app_nil_r.
Qed.

Lemma get_lowest_stack_spec (line : cstring) :
  representable line ->
  get_lowest_stack line
  = Ret (before_last space (after_last semicolon line)).
Proof.
  intros Hr. unfold representable in Hr.
  assert (Hm : size line <= SizeT.modulus)
    by (unfold SizeT.npos in Hr; lia).
  assert (HM : SizeT.modulus = 2 ^ 64) by reflexivity.
  unfold get_lowest_stack.
  destruct (in_dec ascii_dec semicolon line) as [Hsemi|Hsemi].
  - destruct (last_occurrence semicolon line Hsemi) as (l1 & l2 & E & Hn).
    rewrite (find_last_of_last line semicolon l1 l2 Hm E Hn).
    rewrite E, (after_last_split semicolon l1 l2 Hn). rewrite <- E.
    assert (Hsz : size line = size l1 + 1 + size l2)
      by (rewrite E, size_app, size_cons; lia).
    pose proof (size_nonneg l1) as H1. pose proof (size_nonneg l2) as H2.
    assert (Hloc : SizeT.add (size l1) 1 = size (l1 ++ [semicolon])).
    { unfold SizeT.add. rewrite wrap_small, size_app, size_cons.
      - reflexivity.
      - unfold SizeT.npos in Hr. lia. }
    rewrite Hloc.
    assert (El : line = (l1 ++ [semicolon]) ++ l2)
      by (rewrite E, <- app_assoc; reflexivity).
    destruct (in_dec ascii_dec space l2) as [Hsp|Hsp].
    + destruct (last_occurrence space l2 Hsp) as (m & t & E2 & Hnt).
      rewrite E2, (before_last_split space m t Hnt).
      assert (E3 : line = (l1 ++ semicolon :: m) ++ space :: t).
      { rewrite E, E2, <- app_assoc. reflexivity. }
      rewrite (find_last_of_last line space _ t Hm E3 Hnt).
      pose proof (size_nonneg m) as H3.
      replace (SizeT.sub (size (l1 ++ semicolon :: m)) (size (l1 ++ [semicolon])))
        with (size m).
      * rewrite El, E2. apply substr_middle.
      * unfold SizeT.sub. rewrite !size_app, !size_cons.
        change (size []) with 0. rewrite wrap_small; [lia|].
        rewrite E2, size_app, size_cons in Hsz. pose proof (size_nonneg t).
        unfold SizeT.npos in Hr. lia.
    + rewrite (before_last_absent space l2 Hsp).
      rewrite El at 1. apply substr_clip.
      unfold find_last_of.
      destruct (rfind_cases line space SizeT.npos) as [->|(a & b & Ea & ->)].
      * unfold SizeT.sub. rewrite wrap_small.
        -- rewrite size_app, size_cons. change (size []) with 0.
           unfold SizeT.npos in *. lia.
        -- rewrite size_app, size_cons. change (size []) with 0.
           unfold SizeT.npos in *. lia.
      * assert (Hlt : size a < size (l1 ++ [semicolon])).
        { rewrite Ea in El. apply app_eq_app in El.
          destruct El as (l & [[Ea' El2]|[Ea' El2]]).
          - exfalso. apply Hsp. rewrite El2. apply in_or_app. right. now left.
          - destruct l as [|x l].
            + exfalso. apply Hsp. simpl in El2. rewrite <- El2. now left.
            + rewrite Ea', size_app, size_cons. pose proof (size_nonneg l).
              lia. }
        pose proof (size_nonneg a) as Ha.
        unfold SizeT.sub. rewrite wrap_negative.
        -- rewrite size_app, size_cons in *. change (size []) with 0 in *.
           unfold SizeT.npos in Hr. lia.
        -- rewrite size_app, size_cons in *. change (size []) with 0 in *.
           unfold SizeT.npos in Hr. lia.
  - rewrite (find_last_of_absent line semicolon Hsemi).
    rewrite (after_last_absent semicolon line Hsemi).
    change (SizeT.add SizeT.npos 1) with (size []).
    destruct (in_dec ascii_dec space line) as [Hsp|Hsp].
    + destruct (last_occurrence space line Hsp) as (f & t & E & Hnt).
      rewrite (find_last_of_last line space f t Hm E Hnt).
      rewrite E, (before_last_split space f t Hnt).
      pose proof (size_nonneg f) as Hf.
      replace (SizeT.sub (size f) (size [])) with (size f).
      * apply (substr_middle [] f (space :: t)).
      * unfold SizeT.sub. change (size []) with 0. rewrite Z.sub_0_r.
        rewrite wrap_small; [reflexivity|].
        rewrite E, size_app in Hm. pose proof (size_nonneg (space :: t)).
        rewrite E, size_app, size_cons in Hr. pose proof (size_nonneg t).
        unfold SizeT.npos in Hr. lia.
    + rewrite (find_last_of_absent line space Hsp).
      rewrite (before_last_absent space line Hsp).
      apply (substr_clip [] line).
      change (SizeT.sub SizeT.npos (size [])) with SizeT.npos. lia.
Qed.

(** X1.  [get_lowest_stack] never throws, and what it returns is the text
    after the last [';'] of the line, up to the last space of that text when
    it holds one and to the end of the line when it holds none (the length
    handed to [substr] then wraps around, or is [npos]). *)
Theorem get_lowest_stack_value (line : cstring) :
  representable line ->
  get_lowest_stack line
  = Ret (before_last space (after_last semicolon line)).
Proof. exact (get_lowest_stack_spec line). Qed.

(** X2.  On a line of the documented form, frames joined by [';'], a space
    and a count token, [get_lowest_stack] returns the last frame; a line of
    one frame has that frame as its leaf. *)
Theorem get_lowest_stack_last_frame (callers frame token : cstring) :
  ~ In semicolon frame -> ~ In semicolon token -> ~ In space token ->
  (representable (callers ++ semicolon :: frame ++ space :: token) ->
   get_lowest_stack (callers ++ semicolon :: frame ++ space :: token)
   = Ret frame) /\
  (representable (frame ++ space :: token) ->
   get_lowest_stack (frame ++ space :: token) = Ret frame).
Proof.
  intros Hf Ht Hs.
  assert (Hrest : ~ In semicolon (frame ++ space :: token)).
  { intros H. apply in_app_or in H.
    destruct H as [H|[H|H]]; [exact (Hf H)| |exact (Ht H)].
    unfold space, semicolon in H. discriminate H. }
  split; intros Hr; rewrite (get_lowest_stack_spec _ Hr).
  - rewrite (after_last_split semicolon callers _ Hrest).
    now rewrite (before_last_split space frame token Hs).
  - rewrite (after_last_absent semicolon _ Hrest).
    now rewrite (before_last_split space frame token Hs).
Qed.

(** ** The count of a line *)

Lemma numeral_digits (d : Decimal.uint) :
  Forall (fun c => isdigit c = true)
    (list_ascii_of_string (DecimalString.NilEmpty.string_of_uint d)).
Proof. induction d; simpl; constructor; auto. Qed.

Lemma numeral_value_acc (d : Decimal.uint) (a : positive) :
  digits_value (Z.pos a)
    (list_ascii_of_string (DecimalString.NilEmpty.string_of_uint d))
  = Z.pos (Pos.of_uint_acc d a).
Proof.
  revert a.
  induction d; intros a; cbn [DecimalString.NilEmpty.string_of_uint
    list_ascii_of_string digits_value Pos.of_uint_acc];
    [reflexivity|..];
    match goal with
    | |- context [isdigit ?c] =>
        change (isdigit c) with true; cbv iota;
        rewrite <- IHd; apply (f_equal (fun z => digits_value z _));
        (let v := eval cbv in (digit_value c) in
         change (digit_value c) with v);
        lia
    end.
Qed.

Lemma numeral_value (d : Decimal.uint) :
  digits_value 0
    (list_ascii_of_string (DecimalString.NilEmpty.string_of_uint d))
  = Z.of_N (Pos.of_uint d).
Proof.
  induction d; cbn [DecimalString.NilEmpty.string_of_uint
    list_ascii_of_string digits_value Pos.of_uint];
    [reflexivity|exact IHd|..];
    match goal with
    | |- context [isdigit ?c] =>
        change (isdigit c) with true; cbv iota;
        (let v := eval cbv in (10 * 0 + digit_value c) in
         change (10 * 0 + digit_value c) with v);
        apply numeral_value_acc
    end.
Qed.

Lemma decimal_digits n : Forall (fun c => isdigit c = true) (decimal n).
Proof. apply numeral_digits. Qed.

Lemma decimal_value n : digits_value 0 (decimal n) = Z.of_N n.
Proof.
  unfold decimal. rewrite numeral_value. f_equal.
  apply DecimalN.Unsigned.of_to.
Qed.

Lemma digit_not_space c : isdigit c = true -> isspace c = false.
Proof.
  unfold isdigit, isspace. cbv zeta. intros H.
  apply andb_true_iff in H. destruct H as [H1 H2].
  apply Z.leb_le in H1. apply Z.leb_le in H2.
  apply orb_false_iff. split.
  - apply Z.eqb_neq. lia.
  - apply andb_false_iff. right. apply Z.leb_gt. lia.
Qed.

Lemma digit_not_sign c :
  isdigit c = true ->
  Ascii.eqb c "-"%char = false /\ Ascii.eqb c "+"%char = false.
Proof.
  intros H. split; apply Ascii.eqb_neq; intros ->; discriminate H.
Qed.

Lemma digits_no_space l :
  Forall (fun c => isdigit c = true) l -> ~ In space l.
Proof.
  intros H Hin. rewrite Forall_forall in H. specialize (H _ Hin).
  discriminate H.
Qed.

Lemma skip_space_digits l :
  Forall (fun c => isdigit c = true) l -> skip_space l = l.
Proof.
  intros H. destruct H as [|c l Hc _]; [reflexivity|].
  simpl. now rewrite (digit_not_space c Hc).
Qed.

Lemma split_sign_digits l :
  Forall (fun c => isdigit c = true) l -> split_sign l = (false, l).
Proof.
  intros H. destruct H as [|c l Hc _]; [reflexivity|].
  simpl. destruct (digit_not_sign c Hc) as [-> ->]. reflexivity.
Qed.

Lemma atoi_digits l :
  Forall (fun c => isdigit c = true) l ->
  atoi (space :: l)
  = if (INT_MIN <=? digits_value 0 l) && (digits_value 0 l <=? INT_MAX)
    then Some (digits_value 0 l) else None.
Proof.
  intros H. unfold atoi.
  change (skip_space (space :: l)) with (skip_space l).
  rewrite (skip_space_digits l H), (split_sign_digits l H). reflexivity.
Qed.

Lemma atoi_minus_digits l :
  Forall (fun c => isdigit c = true) l ->
  atoi (space :: "-"%char :: l)
  = if (INT_MIN <=? - digits_value 0 l) && (- digits_value 0 l <=? INT_MAX)
    then Some (- digits_value 0 l) else None.
Proof. intros H. reflexivity. Qed.

Lemma atoi_after_space token : atoi (space :: token) = atoi token.
Proof. reflexivity. Qed.

Lemma digits_value_app ds rest :
  Forall (fun c => isdigit c = true) ds ->
  forall acc,
    digits_value acc (ds ++ rest) = digits_value (digits_value acc ds) rest.
Proof.
  induction 1 as [|c ds Hc _ IH]; intros acc; cbn [app digits_value].
  - reflexivity.
  - rewrite Hc. apply IH.
Qed.

Lemma decimal_nonempty n :
  exists c t, decimal n = c :: t /\ isdigit c = true.
Proof.
  assert (Hn : N.to_uint n <> Decimal.Nil).
  { destruct n as [|p]; [discriminate|].
    exact (DecimalPos.Unsigned.to_uint_nonnil p). }
  pose proof (decimal_digits n) as Hd.
  unfold decimal in *. destruct (N.to_uint n); [contradiction|..];
    cbn [DecimalString.NilEmpty.string_of_uint list_ascii_of_string] in *;
    inversion Hd; subst; eauto.
Qed.

Lemma atoi_decimal n rest :
  match rest with c :: _ => isdigit c | [] => false end = false ->
  atoi (space :: decimal n ++ rest)
  = if (INT_MIN <=? Z.of_N n) && (Z.of_N n <=? INT_MAX)
    then Some (Z.of_N n) else None.
Proof.
  intros Hrest. rewrite atoi_after_space. unfold atoi.
  assert (Hv : digits_value 0 (decimal n ++ rest) = Z.of_N n).
  { rewrite (digits_value_app _ rest (decimal_digits n)), decimal_value.
    apply (digits_value_no_digit _ rest Hrest). }
  destruct (decimal_nonempty n) as (c & t & E & Hc).
  rewrite E in *. cbn [app skip_space]. rewrite (digit_not_space c Hc).
  cbn [split_sign]. destruct (digit_not_sign c Hc) as [-> ->].
  cbn [app] in Hv. rewrite Hv. reflexivity.
Qed.

(** X3.  Reading back what was written: on a line that ends in a space and
    the decimal numeral of [n], with [n] in the range of [int],
    [get_sample_count] returns [n], whatever stands before the space.  Text
    after the numeral is ignored, as long as it holds no space and does not
    go on with a digit. *)
Theorem get_sample_count_decimal (stack : cstring) (n : N) (rest : cstring) :
  representable (stack ++ space :: decimal n ++ rest) ->
  Z.of_N n <= INT_MAX ->
  ~ In space rest ->
  match rest with c :: _ => isdigit c | [] => false end = false ->
  get_sample_count (stack ++ space :: decimal n ++ rest) = Ret (Z.of_N n).
Proof.
  intros Hr Hn Hs Hrest.
  assert (Hsp : ~ In space (decimal n ++ rest)).
  { intros H. apply in_app_or in H. destruct H as [H|H]; [|exact (Hs H)].
    exact (digits_no_space _ (decimal_digits n) H). }
  rewrite (get_sample_count_token _ stack _ Hr eq_refl Hsp).
  rewrite (atoi_decimal n rest Hrest).
  assert (H1 : (INT_MIN <=? Z.of_N n) = true)
    by (apply Z.leb_le; unfold INT_MIN; lia).
  assert (H2 : (Z.of_N n <=? INT_MAX) = true) by (apply Z.leb_le; exact Hn).
  rewrite H1, H2. cbn [andb]. f_equal. apply wrap_small.
  unfold INT_MAX in Hn. change SizeT.modulus with (2 ^ 64). lia.
Qed.

(** X4.  A negative count is not rejected: the [int] that [atoi] returns is
    converted to [size_t], so that a line ending in [-n] has the count
    [2^64 - n]. *)
Theorem get_sample_count_negative (stack : cstring) (n : N) :
  representable (stack ++ space :: ("-"%char :: decimal n)) ->
  0 < Z.of_N n <= - INT_MIN ->
  get_sample_count (stack ++ space :: ("-"%char :: decimal n))
  = Ret (SizeT.modulus - Z.of_N n).
Proof.
  intros Hr Hn.
  assert (Hs : ~ In space ("-"%char :: decimal n)).
  { intros [H|H]; [discriminate H|].
    exact (digits_no_space _ (decimal_digits n) H). }
  rewrite (get_sample_count_token _ stack _ Hr eq_refl Hs).
  rewrite (atoi_minus_digits _ (decimal_digits n)), decimal_value.
  assert (H1 : (INT_MIN <=? - Z.of_N n) = true)
    by (apply Z.leb_le; unfold INT_MIN in *; lia).
  assert (H2 : (- Z.of_N n <=? INT_MAX) = true)
    by (apply Z.leb_le; unfold INT_MAX; lia).
  rewrite H1, H2. cbn [andb]. f_equal.
  rewrite wrap_negative; [lia|].
  unfold INT_MIN in Hn. change SizeT.modulus with (2 ^ 64). lia.
Qed.

(** X21.  Counts beyond [int] are not supported: on a line that ends in a
    space and the decimal numeral of a number above [INT_MAX],
    [get_sample_count] runs into the undefined behaviour of [atoi]. *)
Theorem get_sample_count_beyond_int (stack : cstring) (n : N) :
  representable (stack ++ space :: decimal n) ->
  INT_MAX < Z.of_N n ->
  get_sample_count (stack ++ space :: decimal n) = Undefined.
Proof.
  intros Hr Hn.
  rewrite (get_sample_count_token _ stack (decimal n) Hr eq_refl
             (digits_no_space _ (decimal_digits n))).
  rewrite (atoi_digits _ (decimal_digits n)), decimal_value.
  assert (H2 : (Z.of_N n <=? INT_MAX) = false) by (apply Z.leb_gt; exact Hn).
  rewrite H2, andb_false_r. reflexivity.
Qed.

(** ** The aggregation of a file *)

(** X5.  What [build_stack_map] returns: the keys are in strictly increasing
    order, and the leaf [k] is bound if and only if some line of the file has
    the leaf [k], then to the lines with that leaf, in file order, and to the
    sum of their counts in [size_t] arithmetic. *)
Theorem build_stack_map_groups (lines : list cstring) (m : stack_map_t) :
  build_stack_map (Some lines) = Ret m ->
  StronglySorted string_lt (map fst m) /\
  forall k,
    map_find k m
    = match filter (fun line => string_eqb (leaf line) k) lines with
      | [] => None
      | members =>
          Some (SizeT.wrap (fold_right Z.add 0 (map count members)), members)
      end.
Proof.
  intros H. destruct (build_stack_map_aggregates lines m H) as [_ [Hs Hf]].
  split; [exact Hs|]. intros k. rewrite (Hf k). reflexivity.
Qed.

Lemma parsed_iff line :
  representable line ->
  parsed line <-> In space line /\ atoi (count_token line) <> None.
Proof.
  intros Hr. split.
  - intros Hp. pose proof (parsed_has_space line Hr Hp) as Hin.
    split; [exact Hin|]. destruct Hp as [c Hc].
    destruct (last_occurrence space line Hin) as (front & token & E & Hn).
    rewrite (get_sample_count_token line front token Hr E Hn) in Hc.
    rewrite E, (count_token_split front token Hn).
    rewrite atoi_after_space in Hc.
    destruct (atoi token); [discriminate|discriminate Hc].
  - intros [Hin Ha].
    destruct (last_occurrence space line Hin) as (front & token & E & Hn).
    unfold parsed.
    rewrite (get_sample_count_token line front token Hr E Hn).
    rewrite E, (count_token_split front token Hn) in Ha.
    rewrite atoi_after_space.
    destruct (atoi token) as [v|]; [|contradiction].
    exists (SizeT.wrap v). reflexivity.
Qed.

Lemma build_stack_map_returns_iff (lines : list cstring) :
  Forall representable lines ->
  (exists m, build_stack_map (Some lines) = Ret m) <->
  Forall (fun line => In space line /\ atoi (count_token line) <> None) lines.
Proof.
  intros Hr. split.
  - intros [m Hm]. destruct (build_stack_map_aggregates lines m Hm) as [Hp _].
    rewrite Forall_forall in *. intros line Hin.
    apply (parsed_iff line (Hr line Hin)). exact (Hp line Hin).
  - intros H. apply (build_loop_total lines).
    rewrite Forall_forall in *. intros line Hin.
    apply (parsed_iff line (Hr line Hin)). exact (H line Hin).
Qed.

(** X6.  Which files [build_stack_map] accepts: it returns a map if and only
    if every line holds a space and the integer that starts the text after
    the last space, if any, is in the range of [int]. *)
Theorem build_stack_map_accepts (lines : list cstring) :
  Forall representable lines ->
  (exists m, build_stack_map (Some lines) = Ret m) <->
  Forall (fun line => In space line /\ atoi (count_token line) <> None) lines.
Proof. exact (build_stack_map_returns_iff lines). Qed.

Lemma lines_of_cons k v (m : stack_map_t) :
  lines_of ((k, v) :: m) = snd v ++ lines_of m.
Proof. reflexivity. Qed.

Lemma lines_of_put_absent k v m :
  map_find k m = None ->
  Permutation (lines_of (map_put k v m)) (snd v ++ lines_of m).
Proof.
  induction m as [|[k' v'] m IH]; cbn [map_find map_put].
  - reflexivity.
  - destruct (string_compare k k'); intros H.
    + discriminate H.
    + reflexivity.
    + rewrite !lines_of_cons, (IH H). cbn [snd].
      apply Permutation_app_swap_app.
Qed.

Lemma lines_of_put_present k n ls v m :
  map_find k m = Some (n, ls) ->
  Permutation (ls ++ lines_of (map_put k v m)) (snd v ++ lines_of m).
Proof.
  induction m as [|[k' v'] m IH]; cbn [map_find map_put].
  - discriminate.
  - destruct (string_compare k k'); intros H.
    + injection H as ->. rewrite !lines_of_cons. cbn [snd].
      apply Permutation_app_swap_app.
    + discriminate H.
    + rewrite !lines_of_cons. cbn [snd].
      rewrite Permutation_app_swap_app, (IH H).
      apply Permutation_app_swap_app.
Qed.

Lemma build_step_lines m line m' :
  build_step m line = Ret m' -> Permutation (lines_of m') (line :: lines_of m).
Proof.
  rewrite build_step_eq. intros H. inv_bind H. injection H as <-.
  destruct (map_find (leaf line) m) as [[n ls]|] eqn:E.
  - apply (Permutation_app_inv_l ls).
    rewrite (lines_of_put_present _ n ls _ m E). cbn [snd].
    rewrite <- app_assoc. reflexivity.
  - apply (lines_of_put_absent _ (a, [line]) m E).
Qed.

Lemma build_loop_lines lines :
  forall m m', build_loop lines m = Ret m' ->
               Permutation (lines_of m') (lines_of m ++ lines).
Proof.
  induction lines as [|line lines IH]; intros m m' H; cbn [build_loop] in H.
  - injection H as <-. now rewrite app_nil_r.
  - inv_bind H. rewrite (IH _ _ H), (build_step_lines _ _ _ Ha).
    exact (Permutation_middle (lines_of m) lines line).
Qed.

(** X7.  No line is lost and none is invented: the member lists of the map
    that [build_stack_map] returns hold the lines of the file, each as often
    as the file has it. *)
Theorem build_stack_map_keeps_lines (lines : list cstring) (m : stack_map_t) :
  build_stack_map (Some lines) = Ret m ->
  Permutation (concat (map (fun t => snd (snd t)) m)) lines.
Proof. intros H. exact (build_loop_lines lines [] m H). Qed.

Lemma counts_sum_cons k v (m : stack_map_t) :
  counts_sum ((k, v) :: m) = fst v + counts_sum m.
Proof. reflexivity. Qed.

Lemma counts_sum_put_absent k v m :
  map_find k m = None -> counts_sum (map_put k v m) = fst v + counts_sum m.
Proof.
  induction m as [|[k' v'] m IH]; cbn [map_find map_put].
  - reflexivity.
  - destruct (string_compare k k'); intros H.
    + discriminate H.
    + reflexivity.
    + rewrite !counts_sum_cons, (IH H). cbn [fst]. lia.
Qed.

Lemma counts_sum_put_present k n ls v m :
  map_find k m = Some (n, ls) ->
  counts_sum (map_put k v m) = fst v + counts_sum m - n.
Proof.
  induction m as [|[k' v'] m IH]; cbn [map_find map_put].
  - discriminate.
  - destruct (string_compare k k'); intros H.
    + injection H as ->. rewrite !counts_sum_cons. cbn [fst]. lia.
    + discriminate H.
    + rewrite !counts_sum_cons, (IH H). cbn [fst]. lia.
Qed.

Lemma build_step_total m line m' :
  build_step m line = Ret m' ->
  total_samples_of m' = SizeT.add (total_samples_of m) (count line).
Proof.
  rewrite build_step_eq. intros H. inv_bind H. injection H as <-.
  rewrite (count_parsed line a Ha), !total_samples_wrap.
  destruct (map_find (leaf line) m) as [[n ls]|] eqn:E.
  - rewrite (counts_sum_put_present _ n ls _ m E). cbn [fst].
    unfold SizeT.add, SizeT.wrap.
    replace ((n + a) mod SizeT.modulus + counts_sum m - n)
      with ((n + a) mod SizeT.modulus + (counts_sum m - n)) by lia.
    rewrite !Zplus_mod_idemp_l. f_equal. lia.
  - rewrite (counts_sum_put_absent _ (a, [line]) m E). cbn [fst].
    unfold SizeT.add, SizeT.wrap.
    rewrite Zplus_mod_idemp_l. f_equal. lia.
Qed.

Lemma build_loop_total_samples lines :
  forall m m', build_loop lines m = Ret m' ->
    total_samples_of m'
    = SizeT.wrap (total_samples_of m + fold_right Z.add 0 (map count lines)).
Proof.
  induction lines as [|line lines IH]; intros m m' H; cbn [build_loop] in H.
  - injection H as <-. cbn [map fold_right]. rewrite Z.add_0_r.
    rewrite total_samples_wrap. unfold SizeT.wrap. now rewrite Zmod_mod.
  - inv_bind H. rewrite (IH _ _ H), (build_step_total _ _ _ Ha).
    cbn [map fold_right]. unfold SizeT.add, SizeT.wrap.
    rewrite Zplus_mod_idemp_l. f_equal. lia.
Qed.

(** X8.  The total that [filter_stack] divides by is the number of samples
    of the whole file: the sum of the counts of all lines, in [size_t]
    arithmetic. *)
Theorem build_stack_map_total (lines : list cstring) (m : stack_map_t) :
  build_stack_map (Some lines) = Ret m ->
  total_samples_of m = SizeT.wrap (fold_right Z.add 0 (map count lines)).
Proof. intros H. exact (build_loop_total_samples lines [] m H). Qed.

(** ** What the filter keeps *)

Lemma filter_loop_no_patterns total c bindings :
  forall acc,
    filter_loop total c [] bindings acc
    = Ret (acc ++ map snd (filter (fun t => above_cutoff rnd (fst (snd t))
                                               total c) bindings)).
Proof.
  induction bindings as [|t bindings IH]; intros acc; cbn [filter_loop filter].
  - cbn [map]. now rewrite app_nil_r.
  - unfold filter_visit.
    destruct (above_cutoff rnd (fst (snd t)) total c); cbn [bind].
    + rewrite IH. cbn [map]. now rewrite <- app_assoc.
    + apply IH.
Qed.

(** X9.  Without patterns [filter_stack] cannot fail, whatever the map and
    the cutoff, a total of zero included: it returns the entries of the
    groups that pass the comparison, in the order of the map. *)
Theorem filter_stack_without_patterns (m : stack_map_t) (c : double) :
  filter_stack m c []
  = Ret (map snd (filter (fun t => above_cutoff rnd (fst (snd t))
                                     (total_samples_of m) c) m)).
Proof. unfold filter_stack. now rewrite filter_loop_no_patterns. Qed.

Lemma match_any_compiled frame pats :
  Forall (fun p => regex_compile p <> None) pats ->
  match_any frame pats = Ret (existsb (pattern_matches frame) pats).
Proof.
  induction 1 as [|p pats Hp _ IH]; cbn [match_any existsb].
  - reflexivity.
  - unfold pattern_matches at 1.
    destruct (regex_compile p) as [e|]; [|contradiction].
    destruct (regex_match e frame); [reflexivity|exact IH].
Qed.

Lemma filter_loop_compiled total c p pats bindings :
  Forall (fun q => regex_compile q <> None) (p :: pats) ->
  Forall (fun t => snd (snd t) <> [] /\ leaf (hd [] (snd (snd t))) = fst t)
         bindings ->
  forall acc,
    filter_loop total c (p :: pats) bindings acc
    = Ret (acc ++ map snd
             (filter (fun t => above_cutoff rnd (fst (snd t)) total c
                               && existsb (pattern_matches (fst t)) (p :: pats))
                     bindings)).
Proof.
  intros Hc. induction 1 as [|t bindings [Hne Hleaf] _ IH]; intros acc.
  - cbn [filter_loop filter map]. now rewrite app_nil_r.
  - cbn [filter_loop filter]. unfold filter_visit.
    destruct (above_cutoff rnd (fst (snd t)) total c); cbn [andb bind];
      [|apply IH].
    destruct (snd (snd t)) as [|first rest]; [contradiction|].
    cbn [hd] in Hleaf.
    rewrite get_lowest_stack_leaf. cbn [bind].
    rewrite (match_any_compiled _ _ Hc), Hleaf. cbn [bind].
    destruct (existsb (pattern_matches (fst t)) (p :: pats)).
    + rewrite IH. cbn [map]. now rewrite <- app_assoc.
    + apply IH.
Qed.

Lemma filter_stack_compiled (lines : list cstring) (m : stack_map_t)
  (c : double) (p : cstring) (pats : list cstring) :
  build_stack_map (Some lines) = Ret m ->
  Forall (fun q => regex_compile q <> None) (p :: pats) ->
  filter_stack m c (p :: pats)
  = Ret (map snd
           (filter (fun t => above_cutoff rnd (fst (snd t))
                               (total_samples_of m) c
                             && existsb (pattern_matches (fst t)) (p :: pats))
                   m)).
Proof.
  intros Hb Hc. destruct (build_stack_map_aggregates lines m Hb) as [_ Ha].
  unfold filter_stack.
  rewrite (filter_loop_compiled _ c p pats m Hc); [reflexivity|].
  pose proof (aggregates_members_nonempty lines m Ha) as Hne.
  rewrite Forall_forall in *. intros [k [n members]] Hin.
  split; [exact (Hne _ Hin)|].
  exact (aggregates_first_member lines m k n members Ha Hin).
Qed.

(** X10.  With patterns that all compile, [filter_stack] returns on every
    map that [build_stack_map] produces, and keeps a group if and only if it
    passes the comparison and one of the patterns matches the whole of its
    leaf name. *)
Theorem filter_stack_patterns (lines : list cstring) (m : stack_map_t)
  (c : double) (p : cstring) (pats : list cstring) :
  build_stack_map (Some lines) = Ret m ->
  Forall (fun q => regex_compile q <> None) (p :: pats) ->
  filter_stack m c (p :: pats)
  = Ret (map snd
           (filter (fun t => above_cutoff rnd (fst (snd t))
                               (total_samples_of m) c
                             && existsb (pattern_matches (fst t)) (p :: pats))
                   m)).
Proof. exact (filter_stack_compiled lines m c p pats). Qed.

Lemma dgt_antitone a b b' : dle b b' -> dgt a b' = true -> dgt a b = true.
Proof.
  destruct a as [| |x|], b as [| |y|], b' as [| |z|]; simpl; try tauto;
    try discriminate.
  unfold Qltb. intros Hle H. apply negb_true_iff in H. apply negb_true_iff.
  destruct (Qle_bool x y) eqn:E; [|reflexivity].
  apply Qle_bool_iff in E.
  assert (Hxz : Qle_bool x z = true)
    by (apply Qle_bool_iff; now apply Qle_trans with y).
  congruence.
Qed.

Lemma count_nonneg line : 0 <= count line.
Proof.
  unfold count. destruct (get_sample_count line) as [c| | |] eqn:E; try lia.
  apply (get_sample_count_range line c E).
Qed.

Lemma counts_nonneg members : 0 <= fold_right Z.add 0 (map count members).
Proof.
  induction members as [|x members IH]; cbn [map fold_right]; [lia|].
  pose proof (count_nonneg x). lia.
Qed.

Lemma counts_app l1 l2 :
  fold_right Z.add 0 (map count (l1 ++ l2))
  = fold_right Z.add 0 (map count l1) + fold_right Z.add 0 (map count l2).
Proof.
  induction l1 as [|x l1 IH]; cbn [app map fold_right]; [reflexivity|].
  rewrite IH. lia.
Qed.

Lemma counts_permutation l1 l2 :
  Permutation l1 l2 ->
  fold_right Z.add 0 (map count l1) = fold_right Z.add 0 (map count l2).
Proof.
  induction 1; cbn [map fold_right]; lia.
Qed.

Lemma group_total_le members :
  group_total members <= fold_right Z.add 0 (map count members).
Proof.
  unfold group_total, SizeT.wrap.
  apply Z.mod_le; [apply counts_nonneg|reflexivity].
Qed.

Lemma counts_sum_le_lines (m : stack_map_t) :
  (forall t, In t m -> fst (snd t) = group_total (snd (snd t))) ->
  counts_sum m <= fold_right Z.add 0 (map count (lines_of m)).
Proof.
  induction m as [|[k [n members]] m IH]; intros H.
  - reflexivity.
  - rewrite lines_of_cons, counts_sum_cons, counts_app. cbn [fst snd].
    pose proof (H _ (or_introl eq_refl)) as Hn. cbn [fst snd] in Hn.
    pose proof (group_total_le members).
    specialize (IH (fun t Ht => H t (or_intror Ht))). lia.
Qed.

Lemma counts_sum_nonneg (m : stack_map_t) :
  (forall t, In t m -> 0 <= fst (snd t)) -> 0 <= counts_sum m.
Proof.
  induction m as [|[k v] m IH]; intros H; [reflexivity|].
  rewrite counts_sum_cons.
  pose proof (H _ (or_introl eq_refl)) as Hv. cbn [fst snd] in Hv.
  specialize (IH (fun t Ht => H t (or_intror Ht))). lia.
Qed.

Section Cutoff.

Hypothesis rounded : well_rounded rnd.

(** The literal [0.01] is not rounded below 1/100. *)
Hypothesis hundredth : exists q, rnd (1 # 100) = Fin q /\ (1 # 100 <= q)%Q.

Lemma cutoff_fraction_monotone c1 c2 :
  (c1 <= c2)%Q ->
  dle (cutoff_fraction rnd (Fin c1)) (cutoff_fraction rnd (Fin c2)).
Proof.
  intros Hc. destruct rounded as (Hmono & _).
  destruct hundredth as (q & Eq & Hq).
  unfold cutoff_fraction, d0_01, dmul. rewrite Eq.
  apply Hmono. rewrite !(Qmult_comm q). apply Qmult_le_compat_r; [exact Hc|].
  lra.
Qed.

(** X11.  Raising the cutoff never adds a group: what the filter returns at
    the higher of two cutoffs is among what it returns at the lower one. *)
Theorem higher_cutoff_keeps_fewer (m : stack_map_t) (c1 c2 : Q)
  (pats : list cstring) (out1 out2 : list stack_entry) :
  (c1 <= c2)%Q ->
  filter_stack m (Fin c1) pats = Ret out1 ->
  filter_stack m (Fin c2) pats = Ret out2 ->
  incl out2 out1.
Proof.
  intros Hc H1 H2.
  rewrite (filter_stack_retained _ _ _ _ H1), (filter_stack_retained _ _ _ _ H2).
  intros e He. apply in_map_iff in He. destruct He as (t & <- & Ht).
  apply in_map. unfold retained in *. apply filter_In in Ht.
  destruct Ht as [Hin Hp]. apply filter_In. split; [exact Hin|].
  unfold passes in *. apply andb_true_iff in Hp. destruct Hp as [Ha Hs].
  apply andb_true_iff. split; [|exact Hs].
  unfold above_cutoff in *.
  exact (dgt_antitone _ _ _ (cutoff_fraction_monotone c1 c2 Hc) Ha).
Qed.

Lemma above_cutoff_hundred n T c :
  0 <= n <= T -> T <= 2 ^ 64 -> (100 <= c)%Q ->
  above_cutoff rnd n T (Fin c) = false.
Proof.
  intros Hn HT Hc. unfold above_cutoff.
  destruct rounded as (Hmono & (q0 & E0 & H0) & (q1 & E1 & H1) & _).
  destruct (Z.eq_dec T 0) as [->|HT0].
  - assert (n = 0) as -> by lia.
    unfold share, ddiv, of_size_t. rewrite E0.
    assert (Hz : Qeq_bool q0 0 = true) by (apply Qeq_bool_iff; exact H0).
    rewrite Hz. reflexivity.
  - apply dle_not_dgt. apply dle_trans with (rnd (inject_Z 1)).
    + destruct (cast_range rounded n ltac:(lia)) as (qn & En & Hqn & _).
      destruct (cast_range rounded T ltac:(lia)) as (qT & ET & _ & HqT).
      specialize (HqT ltac:(lia)).
      pose proof (cast_monotone rounded n T qn qT ltac:(lia) En ET) as Hle.
      unfold share, ddiv. rewrite En, ET, (Qeq_bool_pos qT HqT).
      apply Hmono. change (inject_Z 1) with 1%Q.
      apply Qle_shift_div_r; [lra|lra].
    + destruct hundredth as (q & Eq & Hq).
      unfold cutoff_fraction, d0_01, dmul. rewrite Eq.
      apply Hmono. change (inject_Z 1) with 1%Q.
      apply Qle_trans with ((1 # 100) * c)%Q; [lra|].
      apply Qmult_le_compat_r; [exact Hq|lra].
Qed.

Lemma above_cutoff_no_samples c : above_cutoff rnd 0 0 c = false.
Proof.
  destruct rounded as (_ & (q0 & E0 & H0) & _).
  unfold above_cutoff, share, ddiv, of_size_t. rewrite E0.
  assert (Hz : Qeq_bool q0 0 = true) by (apply Qeq_bool_iff; exact H0).
  rewrite Hz. reflexivity.
Qed.

(** X12.  A cutoff of 100 percent or more empties the output: no group has
    more than all the samples.  The patterns are not even compiled.  Stated
    for files whose counts sum to less than [2^64]. *)
Theorem cutoff_hundred_keeps_nothing (lines : list cstring) (m : stack_map_t)
  (c : Q) (pats : list cstring) :
  build_stack_map (Some lines) = Ret m ->
  fold_right Z.add 0 (map count lines) < 2 ^ 64 ->
  (100 <= c)%Q ->
  filter_stack m (Fin c) pats = Ret [].
Proof.
  intros Hb Hsum Hc.
  destruct (build_stack_map_aggregates lines m Hb) as [_ Ha].
  assert (Hrange : forall t, In t m -> 0 <= fst (snd t)).
  { intros t Ht. apply (aggregates_count_range lines m t Ha Ht). }
  assert (Hle : counts_sum m <= fold_right Z.add 0 (map count lines)).
  { assert (Hperm : Permutation (lines_of m) lines)
      by exact (build_loop_lines lines [] m Hb).
    rewrite <- (counts_permutation _ _ Hperm).
    apply counts_sum_le_lines. intros [k [n members]] Ht.
    apply (aggregates_binding lines m k n members Ha Ht). }
  assert (H0 : 0 <= counts_sum m).
  { exact (counts_sum_nonneg m Hrange). }
  assert (HT : total_samples_of m = counts_sum m).
  { rewrite total_samples_wrap. apply wrap_small.
    change SizeT.modulus with (2 ^ 64). lia. }
  unfold filter_stack. apply filter_loop_none. intros t Ht.
  apply above_cutoff_hundred; [|rewrite HT; lia|exact Hc].
  rewrite HT. split; [exact (Hrange t Ht)|].
  exact (counts_sum_member m t Hrange Ht).
Qed.

Lemma above_cutoff_zero n T :
  (exists q, rnd (1 # 18446744073709551616) = Fin q /\ (0 < q)%Q) ->
  0 <= n <= T -> T <= 2 ^ 64 ->
  above_cutoff rnd n T (Fin 0) = (0 <? n).
Proof.
  intros (u & Eu & Hu) Hn HT.
  destruct (Z.eq_dec n 0) as [->|Hne].
  - change (0 <? 0) with false.
    destruct (Z.eq_dec T 0) as [->|HT0].
    + apply above_cutoff_no_samples.
    + destruct (above_cutoff rnd 0 T (Fin 0)) eqn:E; [|reflexivity].
      pose proof (passing_count_positive rounded 0 T 0 ltac:(lra)
                    ltac:(lia) ltac:(lia) E). lia.
  - assert (Hp : (0 <? n) = true) by (apply Z.ltb_lt; lia). rewrite Hp.
    destruct rounded as (Hmono & (q0 & E0 & H0) & _ & (q64 & E64 & H64)).
    destruct (cast_range rounded n ltac:(lia)) as (qn & En & _ & Hqn).
    specialize (Hqn ltac:(lia)).
    destruct (cast_range rounded T ltac:(lia)) as (qT & ET & _ & HqT).
    specialize (HqT ltac:(lia)).
    pose proof (cast_monotone rounded T (2 ^ 64) qT q64 HT ET E64) as Hle.
    rewrite H64 in Hle. change (inject_Z (2 ^ 64)) with 18446744073709551616%Q in Hle.
    assert (Hs : dle (rnd (1 # 18446744073709551616)) (share rnd n T)).
    { unfold share, ddiv. rewrite En, ET, (Qeq_bool_pos qT HqT).
      apply Hmono. apply Qle_shift_div_l; lra. }
    assert (Hf : dle (cutoff_fraction rnd (Fin 0)) (rnd (inject_Z 0))).
    { destruct hundredth as (q & Eq & Hq).
      unfold cutoff_fraction, d0_01, dmul. rewrite Eq. apply Hmono.
      change (inject_Z 0) with 0%Q. lra. }
    unfold above_cutoff. rewrite Eu in Hs. rewrite E0 in Hf.
    destruct (share rnd n T) as [| |s|], (cutoff_fraction rnd (Fin 0))
      as [| |f|]; simpl in *; try tauto.
    unfold Qltb. apply negb_true_iff.
    destruct (Qle_bool s f) eqn:E; [|reflexivity].
    apply Qle_bool_iff in E. change (inject_Z 0) with 0%Q in H0. lra.
Qed.

(** X18.  With the cutoff 0 and no patterns, the filter keeps the groups
    that have samples and drops those whose count is zero.  Stated for
    files whose counts sum to less than [2^64], and for a rounding that does
    not flush [2^-64] to zero. *)
Theorem cutoff_zero_keeps_sampled_groups (lines : list cstring)
  (m : stack_map_t) :
  (exists q, rnd (1 # 18446744073709551616) = Fin q /\ (0 < q)%Q) ->
  build_stack_map (Some lines) = Ret m ->
  fold_right Z.add 0 (map count lines) < 2 ^ 64 ->
  filter_stack m (Fin 0) []
  = Ret (map snd (filter (fun t => 0 <? fst (snd t)) m)).
Proof.
  intros Hu Hb Hsum.
  destruct (build_stack_map_aggregates lines m Hb) as [_ Ha].
  assert (Hrange : forall t, In t m -> 0 <= fst (snd t)).
  { intros t Ht. apply (aggregates_count_range lines m t Ha Ht). }
  assert (Hle : counts_sum m <= fold_right Z.add 0 (map count lines)).
  { assert (Hperm : Permutation (lines_of m) lines)
      by exact (build_loop_lines lines [] m Hb).
    rewrite <- (counts_permutation _ _ Hperm).
    apply counts_sum_le_lines. intros [k [n members]] Ht.
    apply (aggregates_binding lines m k n members Ha Ht). }
  pose proof (counts_sum_nonneg m Hrange) as H0.
  assert (HT : total_samples_of m = counts_sum m).
  { rewrite total_samples_wrap. apply wrap_small.
    change SizeT.modulus with (2 ^ 64). lia. }
  unfold filter_stack. rewrite filter_loop_no_patterns. cbn [app].
  f_equal. f_equal. apply filter_ext_in. intros t Ht.
  apply (above_cutoff_zero _ _ Hu); [|rewrite HT; lia].
  rewrite HT. split; [exact (Hrange t Ht)|].
  exact (counts_sum_member m t Hrange Ht).
Qed.

End Cutoff.

(** ** What the truncation leaves *)

Lemma after_last_suffix c l1 l2 :
  after_last c (l1 ++ c :: l2) = after_last c l2.
Proof.
  destruct (in_dec ascii_dec c l2) as [Hin|Hn].
  - destruct (last_occurrence c l2 Hin) as (a & b & E & Hb).
    rewrite E at 1.
    replace (l1 ++ c :: a ++ c :: b) with ((l1 ++ c :: a) ++ c :: b)
      by (rewrite <- app_assoc; reflexivity).
    rewrite (after_last_split c _ b Hb), E.
    symmetry. apply (after_last_split c a b Hb).
  - rewrite (after_last_split c l1 l2 Hn). symmetry.
    apply (after_last_absent c l2 Hn).
Qed.

Lemma representable_suffix pre out :
  representable (pre ++ out) -> representable out.
Proof.
  unfold representable. rewrite size_app. pose proof (size_nonneg pre). lia.
Qed.

Lemma shrink_line_suffix_leaf stack_limit stack :
  0 < stack_limit -> representable stack ->
  exists out,
    shrink_line stack_limit stack = Ret out /\
    (exists pre, stack = pre ++ out) /\
    get_lowest_stack out = get_lowest_stack stack.
Proof.
  intros Hpos Hr.
  destruct (shrink_line_cases stack_limit stack Hpos Hr)
    as [H|(l1 & l2 & E & H)].
  - exists stack. split; [exact H|]. split; [now exists []|reflexivity].
  - exists l2. split; [exact H|]. split.
    + exists (l1 ++ [semicolon]). rewrite E, <- app_assoc. reflexivity.
    + assert (Hr2 : representable l2).
      { apply (representable_suffix (l1 ++ [semicolon])).
        rewrite <- app_assoc. cbn [app]. now rewrite <- E. }
      rewrite (get_lowest_stack_spec l2 Hr2), (get_lowest_stack_spec stack Hr).
      rewrite E, after_last_suffix. reflexivity.
Qed.

(** X13.  With a positive limit [shrink_line] returns on every line; what it
    returns is the end of the line, and has the leaf of the line: frames
    are removed from the front only, and the last one stays. *)
Theorem shrink_line_keeps_leaf (stack_limit : Z) (stack : cstring) :
  0 < stack_limit -> representable stack ->
  exists out,
    shrink_line stack_limit stack = Ret out /\
    (exists pre, stack = pre ++ out) /\
    get_lowest_stack out = get_lowest_stack stack.
Proof. exact (shrink_line_suffix_leaf stack_limit stack). Qed.


Lemma map_outcome_Forall2 {A B : Type} (f : A -> outcome B) (R : A -> B -> Prop)
  (l : list A) :
  Forall (fun a => exists b, f a = Ret b /\ R a b) l ->
  exists l', map_outcome f l = Ret l' /\ Forall2 R l l'.
Proof.
  induction 1 as [|a l (b & Hb & HR) _ (l' & Hl & HF)]; cbn [map_outcome].
  - exists []. split; [reflexivity|constructor].
  - exists (b :: l'). rewrite Hb. cbn [bind]. rewrite Hl. cbn [bind].
    split; [reflexivity|now constructor].
Qed.

Lemma Forall2_same {A : Type} (R : A -> A -> Prop) (l : list A) :
  (forall a, R a a) -> Forall2 R l l.
Proof. intros H. induction l; constructor; auto. Qed.

Lemma shrink_to_stack_limit_shape stacks_map stack_limit :
  0 <= stack_limit ->
  Forall (fun e => Forall representable (snd e)) stacks_map ->
  exists out,
    shrink_to_stack_limit stacks_map stack_limit = Ret out /\
    Forall2 (fun e e' : stack_entry =>
               fst e' = fst e /\
               Forall2 (fun x x' => (exists pre, x = pre ++ x') /\
                                    get_lowest_stack x' = get_lowest_stack x)
                       (snd e) (snd e'))
            stacks_map out.
Proof.
  intros Hpos Hr. unfold shrink_to_stack_limit.
  destruct (stack_limit =? 0) eqn:E.
  - exists stacks_map. split; [reflexivity|].
    apply Forall2_same. intros e. split; [reflexivity|].
    apply Forall2_same. intros x. split; [now exists []|reflexivity].
  - apply Z.eqb_neq in E. apply map_outcome_Forall2.
    rewrite Forall_forall in *. intros e He.
    destruct (map_outcome_Forall2 (shrink_line stack_limit)
                (fun x x' => (exists pre, x = pre ++ x') /\
                             get_lowest_stack x' = get_lowest_stack x)
                (snd e)) as (members' & Hm & HF).
    { specialize (Hr e He). rewrite Forall_forall in *. intros x Hx.
      destruct (shrink_line_suffix_leaf stack_limit x ltac:(lia) (Hr x Hx))
        as (out & H1 & H2 & H3).
      exists out. split; [exact H1|]. split; assumption. }
    exists (fst e, members'). unfold shrink_entry. rewrite Hm. cbn [bind].
    split; [reflexivity|]. split; [reflexivity|exact HF].
Qed.

(** X15.  [shrink_to_stack_limit] returns on every sequence of groups, with
    the same groups in the same order: each keeps its count and its number
    of members, and each member is replaced by an end of itself that has the
    same leaf. *)
Theorem shrink_to_stack_limit_keeps_groups (stacks_map : list stack_entry)
  (stack_limit : Z) :
  0 <= stack_limit ->
  Forall (fun e => Forall representable (snd e)) stacks_map ->
  exists out,
    shrink_to_stack_limit stacks_map stack_limit = Ret out /\
    Forall2 (fun e e' : stack_entry =>
               fst e' = fst e /\
               Forall2 (fun x x' => (exists pre, x = pre ++ x') /\
                                    get_lowest_stack x' = get_lowest_stack x)
                       (snd e) (snd e'))
            stacks_map out.
Proof. exact (shrink_to_stack_limit_shape stacks_map stack_limit). Qed.

(** ** The ends of a run *)

Lemma bind_no_exit {A B : Type} (m : outcome A) (k : A -> outcome B) :
  (forall code, m <> Exit code) ->
  (forall a code, k a <> Exit code) ->
  forall code, bind m k <> Exit code.
Proof.
  intros Hm Hk code. destruct m as [a| | |]; cbn [bind].
  - apply Hk.
  - discriminate.
  - intros _. exact (Hm _ eq_refl).
  - discriminate.
Qed.

Lemma map_outcome_no_exit {A B : Type} (f : A -> outcome B) (l : list A) :
  (forall a code, f a <> Exit code) ->
  forall code, map_outcome f l <> Exit code.
Proof.
  intros Hf. induction l as [|a l IH]; cbn [map_outcome]; [discriminate|].
  apply bind_no_exit; [apply Hf|]. intros b.
  apply bind_no_exit; [exact IH|]. discriminate.
Qed.

Lemma build_loop_no_exit lines :
  forall m code, build_loop lines m <> Exit code.
Proof.
  induction lines as [|line lines IH]; intros m; cbn [build_loop];
    [discriminate|].
  apply bind_no_exit; [|intros a; apply IH].
  rewrite build_step_eq.
  apply bind_no_exit; [apply get_sample_count_no_exit|discriminate].
Qed.

Lemma filter_loop_no_exit total c pats bindings :
  forall acc code, filter_loop total c pats bindings acc <> Exit code.
Proof.
  induction bindings as [|t bindings IH]; intros acc; cbn [filter_loop];
    [discriminate|].
  apply bind_no_exit; [|intros a; apply IH].
  unfold filter_visit.
  destruct (above_cutoff rnd (fst (snd t)) total c); [|discriminate].
  destruct pats as [|p pats]; [discriminate|].
  destruct (snd (snd t)) as [|first rest]; [discriminate|].
  rewrite get_lowest_stack_leaf. cbn [bind].
  apply bind_no_exit; [|discriminate].
  intros code. destruct (match_any_outcome (leaf first) (p :: pats))
    as [[b ->]| ->]; discriminate.
Qed.

Lemma shrink_line_no_exit stack_limit stack code :
  shrink_line stack_limit stack <> Exit code.
Proof.
  unfold shrink_line, substr.
  destruct (_ =? SizeT.npos); [discriminate|].
  destruct (_ <? _); discriminate.
Qed.

Lemma shrink_to_stack_limit_no_exit stacks_map stack_limit code :
  shrink_to_stack_limit stacks_map stack_limit <> Exit code.
Proof.
  unfold shrink_to_stack_limit. destruct (stack_limit =? 0); [discriminate|].
  apply map_outcome_no_exit. intros e. unfold shrink_entry.
  apply bind_no_exit; [|discriminate].
  apply map_outcome_no_exit. apply shrink_line_no_exit.
Qed.

(** X16.  A run has one of three ends: exit code 0 with the output file
    written, exit code 1 with the output file never opened, or undefined
    behaviour.  No failure leaves an output file behind, and no other exit
    code occurs. *)
Theorem main_ends (input_file : option (list cstring))
  (cutoff_percentage : double) (stack_limit : Z)
  (regexes_to_show : list cstring) (out_file_opens : bool) :
  (exists written,
     main input_file cutoff_percentage stack_limit regexes_to_show
          out_file_opens = Exited 0 (Some written)) \/
  main input_file cutoff_percentage stack_limit regexes_to_show
       out_file_opens = Exited 1 None \/
  main input_file cutoff_percentage stack_limit regexes_to_show
       out_file_opens = UndefinedRun.
Proof.
  unfold main. destruct input_file as [lines|]; cbn [build_stack_map];
    [|right; left; reflexivity].
  destruct (build_loop lines []) as [m| |code|] eqn:Eb; cbn [bind];
    [|right; left; reflexivity
     |exfalso; exact (build_loop_no_exit lines [] code Eb)
     |right; right; reflexivity].
  unfold filter_stack.
  destruct (filter_loop _ cutoff_percentage regexes_to_show m [])
    as [filtered| |code|] eqn:Ef; cbn [bind];
    [|right; left; reflexivity
     |exfalso; exact (filter_loop_no_exit _ _ _ _ _ code Ef)
     |right; right; reflexivity].
  destruct (shrink_to_stack_limit filtered stack_limit)
    as [shrunk| |code|] eqn:Es; cbn [bind];
    [|right; left; reflexivity
     |exfalso; exact (shrink_to_stack_limit_no_exit _ _ code Es)
     |right; right; reflexivity].
  unfold write_filtered_stack_to_file. destruct out_file_opens.
  - left. eexists. reflexivity.
  - right. left. reflexivity.
Qed.

Lemma Forall2_In_r {A B : Type} (R : A -> B -> Prop) l l' b :
  Forall2 R l l' -> In b l' -> exists a, In a l /\ R a b.
Proof.
  induction 1 as [|a b' l l' HR _ IH]; intros Hin; [contradiction|].
  destruct Hin as [<-|Hin].
  - exists a. split; [now left|exact HR].
  - destruct (IH Hin) as (a' & Ha & HR'). exists a'. split; [now right|exact HR'].
Qed.

(** X17.  Nothing is written that was not read: every line of the output
    file is the end of a line of the input file, and has the leaf of that
    line. *)
Theorem main_writes_ends_of_input_lines (lines : list cstring)
  (cutoff_percentage : double) (stack_limit : Z)
  (regexes_to_show : list cstring) (written : list cstring) :
  0 <= stack_limit ->
  Forall representable lines ->
  main (Some lines) cutoff_percentage stack_limit regexes_to_show true
  = Exited 0 (Some written) ->
  Forall (fun x' =>
            exists line pre,
              In line lines /\ line = pre ++ x' /\
              get_lowest_stack x' = get_lowest_stack line)
         written.
Proof.
  intros Hpos Hr H. unfold main in H.
  destruct (build_stack_map (Some lines)) as [m| | |] eqn:Eb;
    cbn [bind] in H; try discriminate H.
  destruct (filter_stack m cutoff_percentage regexes_to_show)
    as [filtered| | |] eqn:Ef; cbn [bind] in H; try discriminate H.
  destruct (shrink_to_stack_limit filtered stack_limit)
    as [shrunk| | |] eqn:Es; cbn [bind] in H; try discriminate H.
  cbn [write_filtered_stack_to_file] in H. injection H as <-.
  destruct (build_stack_map_aggregates lines m Eb) as [_ Ha].
  rewrite (filter_stack_retained _ _ _ _ Ef) in Es.
  assert (Hmem : forall e x,
             In e (map snd (retained m cutoff_percentage regexes_to_show)) ->
             In x (snd e) -> In x lines).
  { intros e x He Hx. apply in_map_iff in He. destruct He as (t & <- & Ht).
    apply retained_incl in Ht. destruct t as [k [n members]].
    destruct (aggregates_binding lines m k n members Ha Ht) as [-> _].
    exact (group_of_incl lines k x Hx). }
  rewrite Forall_forall in Hr.
  destruct (shrink_to_stack_limit_shape
              (map snd (retained m cutoff_percentage regexes_to_show))
              stack_limit Hpos) as (out & Hout & HF).
  { rewrite Forall_forall. intros e He. rewrite Forall_forall. intros x Hx.
    exact (Hr x (Hmem e x He Hx)). }
  rewrite Es in Hout. injection Hout as <-.
  rewrite Forall_forall. intros x' Hx'.
  apply in_concat in Hx'. destruct Hx' as (members' & Hm' & Hx').
  apply in_map_iff in Hm'. destruct Hm' as (e' & <- & He').
  destruct (Forall2_In_r _ _ _ e' HF He') as (e & He & _ & HF2).
  destruct (Forall2_In_r _ _ _ x' HF2 Hx') as (x & Hx & [pre Hpre] & Hleaf).
  exists x, pre. split; [exact (Hmem e x He Hx)|].
  split; [exact Hpre|exact Hleaf].
Qed.

Lemma filter_stack_returns lines m c pats :
  build_stack_map (Some lines) = Ret m ->
  Forall (fun q => regex_compile q <> None) pats ->
  exists out, filter_stack m c pats = Ret out.
Proof.
  intros Hb Hc. destruct pats as [|p pats].
  - eexists. unfold filter_stack. apply filter_loop_no_patterns.
  - eexists. exact (filter_stack_compiled lines m c p pats Hb Hc).
Qed.

(** X20.  Which runs succeed: with an input file that opens, patterns that
    all compile and an output file that opens, [main] ends with exit code 0
    and the output written if and only if every line of the input holds a
    space and the integer that starts the text after its last space, if any,
    is in the range of [int]. *)
Theorem main_succeeds (lines : list cstring) (cutoff_percentage : double)
  (stack_limit : Z) (regexes_to_show : list cstring) :
  0 <= stack_limit ->
  Forall representable lines ->
  Forall (fun q => regex_compile q <> None) regexes_to_show ->
  (exists written,
     main (Some lines) cutoff_percentage stack_limit regexes_to_show true
     = Exited 0 (Some written)) <->
  Forall (fun line => In space line /\ atoi (count_token line) <> None) lines.
Proof.
  intros Hpos Hr Hc. rewrite <- (build_stack_map_returns_iff lines Hr).
  unfold main. split.
  - intros [written H].
    destruct (build_stack_map (Some lines)) as [m| | |];
      cbn [bind] in H; try discriminate H.
    now exists m.
  - intros [m Hb]. rewrite Hb. cbn [bind].
    destruct (filter_stack_returns lines m cutoff_percentage regexes_to_show
                Hb Hc) as [filtered Hf].
    rewrite Hf. cbn [bind].
    destruct (build_stack_map_aggregates lines m Hb) as [_ Ha].
    destruct (shrink_to_stack_limit_shape filtered stack_limit Hpos)
      as (shrunk & Hs & _).
    { rewrite (filter_stack_retained _ _ _ _ Hf).
      rewrite Forall_forall in *. intros e He. rewrite Forall_forall.
      intros x Hx. apply Hr.
      apply in_map_iff in He. destruct He as (t & <- & Ht).
      apply retained_incl in Ht. destruct t as [k [n members]].
      destruct (aggregates_binding lines m k n members Ha Ht) as [-> _].
      exact (group_of_incl lines k x Hx). }
    rewrite Hs. cbn [bind write_filtered_stack_to_file]. eexists. reflexivity.
Qed.

(** ** Malformed patterns *)

Lemma match_any_prefix frame pre rest :
  Forall (fun p => regex_compile p <> None) pre ->
  existsb (pattern_matches frame) pre = true ->
  match_any frame (pre ++ rest) = Ret true.
Proof.
  induction 1 as [|p pre Hp _ IH]; cbn [existsb app match_any];
    [discriminate|].
  unfold pattern_matches at 1.
  destruct (regex_compile p) as [e|]; [|contradiction].
  destruct (regex_match e frame); [reflexivity|]. cbn [orb]. exact IH.
Qed.

Lemma filter_loop_prefix total c pre bad post bindings :
  Forall (fun p => regex_compile p <> None) pre ->
  Forall (fun t => snd (snd t) <> [] /\ leaf (hd [] (snd (snd t))) = fst t)
         bindings ->
  (forall t, In t bindings ->
             above_cutoff rnd (fst (snd t)) total c = true ->
             existsb (pattern_matches (fst t)) pre = true) ->
  forall acc,
    filter_loop total c (pre ++ bad :: post) bindings acc
    = Ret (acc ++ map snd (filter (fun t => above_cutoff rnd (fst (snd t))
                                               total c) bindings)).
Proof.
  intros Hc Hall. induction Hall as [|t bindings [Hne Hleaf] _ IH];
    intros Hmatch acc.
  - cbn [filter_loop filter map]. now rewrite app_nil_r.
  - cbn [filter_loop filter].
    assert (Hv : filter_visit total c (pre ++ bad :: post) acc t
                 = Ret (if above_cutoff rnd (fst (snd t)) total c
                        then acc ++ [snd t] else acc)).
    { unfold filter_visit.
      destruct (above_cutoff rnd (fst (snd t)) total c) eqn:Ea;
        [|reflexivity].
      destruct (pre ++ bad :: post) as [|p ps] eqn:E;
        [destruct pre; discriminate E|].
      destruct (snd (snd t)) as [|first rest]; [contradiction|].
      cbn [hd] in Hleaf. rewrite get_lowest_stack_leaf. cbn [bind].
      rewrite <- E, Hleaf.
      rewrite (match_any_prefix _ pre (bad :: post) Hc
                 (Hmatch t (or_introl eq_refl) Ea)).
      reflexivity. }
    rewrite Hv. cbn [bind].
    rewrite IH by (intros u Hu; apply Hmatch; now right).
    destruct (above_cutoff rnd (fst (snd t)) total c); cbn [map];
      [now rewrite <- app_assoc|reflexivity].
Qed.

(** C3, as the code has it.  Each pattern is compiled when the loop over the
    patterns of a group that passes the cutoff reaches it.  A pattern that
    does not compile ends the run with exit code 1 and nothing written as
    soon as it is reached: some group passes the cutoff test and none of the
    patterns listed before the malformed one matches its leaf.  It is skipped
    when every group that passes the cutoff test, if there is one, is matched
    by a pattern listed before it: the filter then returns the groups that
    pass the cutoff test, and the run ends with exit code 0 and its output
    written. *)
Theorem malformed_pattern_aborts_when_reached
  (lines : list cstring) (m : stack_map_t) (cutoff_percentage : double)
  (stack_limit : Z) (pre : list cstring) (bad : cstring)
  (post : list cstring) :
  build_stack_map (Some lines) = Ret m ->
  regex_compile bad = None ->
  (forall k n members out_file_opens,
     In (k, (n, members)) m ->
     above_cutoff rnd n (total_samples_of m) cutoff_percentage = true ->
     (forall p e, In p pre -> regex_compile p = Some e ->
                  regex_match e k = false) ->
     filter_stack m cutoff_percentage (pre ++ bad :: post)
     = Throw regex_error /\
     main (Some lines) cutoff_percentage stack_limit (pre ++ bad :: post)
          out_file_opens
     = Exited 1 None) /\
  (Forall (fun p => regex_compile p <> None) pre ->
   (forall k n members,
      In (k, (n, members)) m ->
      above_cutoff rnd n (total_samples_of m) cutoff_percentage = true ->
      existsb (pattern_matches k) pre = true) ->
   filter_stack m cutoff_percentage (pre ++ bad :: post)
   = Ret (map snd
            (filter (fun t => above_cutoff rnd (fst (snd t))
                                (total_samples_of m) cutoff_percentage)
                    m)) /\
   (0 <= stack_limit -> Forall representable lines ->
    exists written,
      main (Some lines) cutoff_percentage stack_limit (pre ++ bad :: post)
           true
      = Exited 0 (Some written))).
Proof.
  intros Hb Hbad.
  pose proof (build_stack_map_aggregates _ _ Hb) as [_ Hagg].
  pose proof (aggregates_members_nonempty _ _ Hagg) as Hall.
  split.
  - intros k n members out_file_opens Hin Habove Hpre.
    assert (Hf : filter_stack m cutoff_percentage (pre ++ bad :: post)
                 = Throw regex_error).
    { destruct (in_split _ _ Hin) as (before & after & E).
      unfold filter_stack. rewrite E at 2. rewrite E in Hall.
      apply Forall_app in Hall. destruct Hall as [Hbefore Hcons].
      inversion Hcons as [|? ? Hne _]. subst.
      apply filter_loop_throws; try assumption.
      simpl. rewrite (aggregates_first_member lines _ k n members Hagg Hin).
      now apply match_any_reaches. }
    split; [exact Hf|]. unfold main. rewrite Hb. cbn [bind]. now rewrite Hf.
  - intros Hc Hmatch.
    assert (Hf : filter_stack m cutoff_percentage (pre ++ bad :: post)
                 = Ret (map snd
                          (filter (fun t => above_cutoff rnd (fst (snd t))
                                              (total_samples_of m)
                                              cutoff_percentage) m))).
    { unfold filter_stack. rewrite (filter_loop_prefix _ _ pre bad post m Hc).
      - reflexivity.
      - rewrite Forall_forall in *. intros [k [n members]] Hin.
        split; [exact (Hall _ Hin)|].
        exact (aggregates_first_member lines m k n members Hagg Hin).
      - intros [k [n members]] Hin Ha. exact (Hmatch k n members Hin Ha). }
    split; [exact Hf|]. intros Hpos Hr.
    unfold main. rewrite Hb. cbn [bind]. rewrite Hf. cbn [bind].
    destruct (shrink_to_stack_limit_shape
                (map snd
                   (filter (fun t => above_cutoff rnd (fst (snd t))
                                       (total_samples_of m)
                                       cutoff_percentage) m))
                stack_limit Hpos) as (shrunk & Hs & _).
    { rewrite Forall_forall in *. intros e He. rewrite Forall_forall.
      intros x Hx. apply Hr.
      apply in_map_iff in He. destruct He as (t & <- & Ht).
      apply filter_In in Ht. destruct Ht as [Ht _].
      destruct t as [k [n members]].
      destruct (aggregates_binding lines m k n members Hagg Ht) as [-> _].
      exact (group_of_incl lines k x Hx). }
    rewrite Hs. cbn [bind write_filtered_stack_to_file].
    eexists. reflexivity.
Qed.

(** ** Printing a vector *)

Lemma fold_left_print {T : Type} (print : T -> cstring) (sep : cstring)
  (l : list T) :
  forall os,
    fold_left (fun o x => o ++ print x ++ sep) l os
    = os ++ concat (map (fun x => print x ++ sep) l).
Proof.
  induction l as [|x l IH]; intros os; cbn [fold_left map concat].
  - now rewrite app_nil_r.
  - rewrite IH, <- !app_assoc. reflexivity.
Qed.

Lemma join_snoc {T : Type} (print : T -> cstring) (sep : cstring)
  (l : list T) (x : T) :
  join sep (map print (l ++ [x]))
  = concat (map (fun y => print y ++ sep) l) ++ print x.
Proof.
  induction l as [|y l IH]; cbn [app map concat].
  - reflexivity.
  - cbn [join]. cbn [app map concat] in IH.
    destruct (map print (l ++ [x])) as [|z rest] eqn:E.
    + destruct l; discriminate E.
    + rewrite IH, <- !app_assoc. reflexivity.
Qed.

(** X19.  [operator<<] writes a vector that is not empty as its elements in
    order between parentheses, with [", "] between each two of them and none
    after the last. *)
Theorem operator_shift_left_joined {T : Type} (print : T -> cstring)
  (os : cstring) (v : list T) :
  v <> [] ->
  operator_shift_left print os v
  = Ret (os ++ str "(" ++ join (str ", ") (map print v) ++ str ")").
Proof.
  intros Hv. destruct v as [|first rest]; [contradiction|].
  unfold operator_shift_left. rewrite fold_left_print.
  rewrite (app_removelast_last first Hv) at 3.
  rewrite join_snoc, <- !app_assoc. reflexivity.
Qed.

End Pipeline.

(** ** Rounding to binary64 *)

Section Binary64.

Local Open Scope Q_scope.

Lemma round_half_even_cases s :
  round_half_even s = Qfloor s \/ round_half_even s = (Qfloor s + 1)%Z.
Proof.
  unfold round_half_even.
  destruct (Qcompare (s - inject_Z (Qfloor s)) (1 # 2)); auto.
  destruct (Z.even (Qfloor s)); auto.
Qed.

Lemma round_half_even_monotone s t :
  s <= t -> (round_half_even s <= round_half_even t)%Z.
Proof.
  intros Hst. pose proof (Qfloor_resp_le s t Hst) as Hf.
  destruct (Z.eq_dec (Qfloor s) (Qfloor t)) as [E|Hne].
  - unfold round_half_even. rewrite <- E.
    destruct (Qcompare_spec (s - inject_Z (Qfloor s)) (1 # 2)) as [H1|H1|H1];
      destruct (Qcompare_spec (t - inject_Z (Qfloor s)) (1 # 2)) as [H2|H2|H2];
      destruct (Z.even (Qfloor s)); try lia; exfalso; lra.
  - destruct (round_half_even_cases s) as [-> | ->];
      destruct (round_half_even_cases t) as [-> | ->]; lia.
Qed.

Lemma round_half_even_Z k : round_half_even (inject_Z k) = k.
Proof.
  unfold round_half_even. rewrite Qfloor_Z.
  destruct (Qcompare_spec (inject_Z k - inject_Z k) (1 # 2)) as [H|H|H];
    try reflexivity; exfalso; lra.
Qed.

Lemma two_pos e : 0 < 2 ^ e.
Proof. now apply Qpower_0_lt. Qed.

Lemma two_add a b : 2 ^ (a + b) == 2 ^ a * 2 ^ b.
Proof. apply Qpower_plus. discriminate. Qed.

Lemma two_le a b : (a <= b)%Z -> 2 ^ a <= 2 ^ b.
Proof. intros H. apply Qpower_le_compat_l; [exact H|discriminate]. Qed.

Lemma two_Z k : (0 <= k)%Z -> 2 ^ k == inject_Z (2 ^ k).
Proof. intros H. now rewrite Zpower_Qpower. Qed.


Lemma inject_Z_pos z : (0 < z)%Z -> 0 < inject_Z z.
Proof. intros H. unfold Qlt. simpl. lia. Qed.

Lemma inject_Z_nonzero z : (0 < z)%Z -> ~ inject_Z z == 0.
Proof. intros H E. unfold Qeq in E. simpl in E. lia. Qed.

Lemma mag_spec x : 0 < x -> 2 ^ (mag x - 1) <= x /\ x < 2 ^ mag x.
Proof.
  destruct x as [n d]. intros Hx.
  assert (Hn : (0 < n)%Z) by (unfold Qlt in Hx; simpl in Hx; lia).
  pose proof (Z.log2_spec n Hn) as [Hn1 Hn2].
  pose proof (Z.log2_spec (Zpos d) ltac:(lia)) as [Hd1 Hd2].
  pose proof (Z.log2_nonneg n) as Ha. pose proof (Z.log2_nonneg (Zpos d)) as Hb.
  set (a := Z.log2 n) in *. set (b := Z.log2 (Zpos d)) in *.
  assert (Hpa : (0 < 2 ^ a)%Z) by (apply Z.pow_pos_nonneg; lia).
  assert (Hpb : (0 < 2 ^ b)%Z) by (apply Z.pow_pos_nonneg; lia).
  assert (Hnz : ~ 2 == 0) by discriminate.
  assert (Hup : n # d < 2 ^ (a - b + 1)).
  { replace (a - b + 1)%Z with (Z.succ a - b)%Z by lia.
    rewrite (Qmake_Qdiv n d), (Qpower_minus 2 _ _ Hnz), !two_Z by lia.
    apply Qlt_shift_div_r; [apply inject_Z_pos; lia|].
    setoid_replace (inject_Z (2 ^ Z.succ a) / inject_Z (2 ^ b) * inject_Z (Zpos d))
      with (inject_Z (2 ^ Z.succ a) * inject_Z (Zpos d) / inject_Z (2 ^ b))
      by (field; now apply inject_Z_nonzero).
    apply Qlt_shift_div_l; [now apply inject_Z_pos|].
    rewrite <- !inject_Z_mult, <- Zlt_Qlt. nia. }
  assert (Hlow : 2 ^ (a - b - 1) < n # d).
  { replace (a - b - 1)%Z with (a - Z.succ b)%Z by lia.
    assert (Hpb' : (0 < 2 ^ Z.succ b)%Z) by (apply Z.pow_pos_nonneg; lia).
    rewrite (Qmake_Qdiv n d), (Qpower_minus 2 _ _ Hnz), !two_Z by lia.
    apply Qlt_shift_div_l; [apply inject_Z_pos; lia|].
    setoid_replace (inject_Z (2 ^ a) / inject_Z (2 ^ Z.succ b) * inject_Z (Zpos d))
      with (inject_Z (2 ^ a) * inject_Z (Zpos d) / inject_Z (2 ^ Z.succ b))
      by (field; now apply inject_Z_nonzero).
    apply Qlt_shift_div_r; [now apply inject_Z_pos|].
    rewrite <- !inject_Z_mult, <- Zlt_Qlt. nia. }
  unfold mag. cbn [Qnum Qden]. fold a b.
  destruct (Qle_bool (2 ^ (a - b)) (n # d)) eqn:E.
  - apply Qle_bool_iff in E. replace (a - b + 1 - 1)%Z with (a - b)%Z by lia.
    now split.
  - split; [now apply Qlt_le_weak|].
    apply Qnot_le_lt. intros H. apply Qle_bool_iff in H. congruence.
Qed.

Lemma mag_monotone x y : 0 < x -> x <= y -> (mag x <= mag y)%Z.
Proof.
  intros Hx Hxy.
  destruct (mag_spec x Hx) as [Hl _].
  destruct (mag_spec y (Qlt_le_trans _ _ _ Hx Hxy)) as [_ Hu].
  assert (H : 2 ^ (mag x - 1) < 2 ^ mag y)
    by (eapply Qle_lt_trans; [exact Hl|]; eapply Qle_lt_trans; eassumption).
  apply Qpower_lt_compat_l_inv in H; [lia|reflexivity].
Qed.

Lemma round_binary64_pos_value x :
  round_binary64_pos x =
    if Qle_bool (2 ^ 1024) (Qred (pos_value x)) then None
    else Some (Qred (pos_value x)).
Proof. reflexivity. Qed.

Lemma div_two_le x y e : x <= y -> x / 2 ^ e <= y / 2 ^ e.
Proof.
  intros H. unfold Qdiv. apply Qmult_le_compat_r; [exact H|].
  apply Qinv_le_0_compat. apply Qlt_le_weak, two_pos.
Qed.

Lemma two_div a b : 2 ^ a / 2 ^ b == 2 ^ (a - b).
Proof. symmetry. apply Qpower_minus. discriminate. Qed.

Lemma pos_value_nonneg x : 0 < x -> 0 <= pos_value x.
Proof.
  intros Hx. unfold pos_value. apply Qmult_le_0_compat.
  - assert (H : (round_half_even 0 <= round_half_even (x / 2 ^ cexp x))%Z).
    { apply round_half_even_monotone. apply Qle_shift_div_l; [apply two_pos|].
      rewrite Qmult_0_l. now apply Qlt_le_weak. }
    change 0 with (inject_Z 0) in H at 1. rewrite round_half_even_Z in H.
    change 0 with (inject_Z 0). now rewrite <- Zle_Qle.
  - apply Qlt_le_weak, two_pos.
Qed.

Lemma pos_value_upper x :
  0 < x -> pos_value x <= 2 ^ Z.max (mag x) (cexp x).
Proof.
  intros Hx. destruct (mag_spec x Hx) as [_ Hu].
  set (e := cexp x). set (k := (Z.max (mag x) e - e)%Z).
  assert (Hk : (0 <= k)%Z) by lia.
  assert (Hs : x / 2 ^ e <= inject_Z (2 ^ k)).
  { rewrite <- two_Z by exact Hk. unfold k. rewrite <- two_div.
    apply div_two_le. apply Qle_trans with (2 ^ mag x).
    - now apply Qlt_le_weak.
    - apply two_le. lia. }
  apply round_half_even_monotone in Hs. rewrite round_half_even_Z in Hs.
  unfold pos_value. fold e.
  apply Qle_trans with (inject_Z (2 ^ k) * 2 ^ e).
  - apply Qmult_le_compat_r; [now rewrite <- Zle_Qle|].
    apply Qlt_le_weak, two_pos.
  - rewrite <- two_Z by exact Hk. rewrite <- two_add.
    unfold k. replace (Z.max (mag x) e - e + e)%Z with (Z.max (mag x) e) by lia.
    apply Qle_refl.
Qed.

Lemma pos_value_lower x :
  0 < x -> cexp x = (mag x - 53)%Z -> 2 ^ (mag x - 1) <= pos_value x.
Proof.
  intros Hx He. destruct (mag_spec x Hx) as [Hl _].
  assert (Hs : inject_Z (2 ^ 52) <= x / 2 ^ cexp x).
  { rewrite <- two_Z by lia.
    replace 52%Z with (mag x - 1 - cexp x)%Z by lia.
    rewrite <- two_div. now apply div_two_le. }
  apply round_half_even_monotone in Hs. rewrite round_half_even_Z in Hs.
  unfold pos_value.
  apply Qle_trans with (inject_Z (2 ^ 52) * 2 ^ cexp x).
  - rewrite <- two_Z by lia. rewrite <- two_add.
    apply two_le. lia.
  - apply Qmult_le_compat_r; [now rewrite <- Zle_Qle|].
    apply Qlt_le_weak, two_pos.
Qed.

Lemma pos_value_monotone x y : 0 < x -> x <= y -> pos_value x <= pos_value y.
Proof.
  intros Hx Hxy. pose proof (Qlt_le_trans _ _ _ Hx Hxy) as Hy.
  pose proof (mag_monotone x y Hx Hxy) as Hm.
  destruct (Z.eq_dec (cexp x) (cexp y)) as [E|Hne].
  - unfold pos_value. rewrite <- E.
    apply Qmult_le_compat_r; [|apply Qlt_le_weak, two_pos].
    rewrite <- Zle_Qle. apply round_half_even_monotone. now apply div_two_le.
  - assert (Hlt : (cexp x < cexp y)%Z) by (unfold cexp in *; lia).
    assert (Hey : cexp y = (mag y - 53)%Z) by (unfold cexp in *; lia).
    apply Qle_trans with (2 ^ Z.max (mag x) (cexp x));
      [now apply pos_value_upper|].
    apply Qle_trans with (2 ^ (mag y - 1));
      [|now apply pos_value_lower].
    apply two_le. unfold cexp in *. lia.
Qed.

Lemma round_binary64_pos_monotone x y :
  0 < x -> x <= y ->
  match round_binary64_pos x, round_binary64_pos y with
  | Some r, Some r' => r <= r'
  | _, None => True
  | None, Some _ => False
  end.
Proof.
  intros Hx Hxy. pose proof (pos_value_monotone x y Hx Hxy) as H.
  rewrite !round_binary64_pos_value.
  destruct (Qle_bool (2 ^ 1024) (Qred (pos_value y))) eqn:Ey.
  - now destruct (Qle_bool (2 ^ 1024) (Qred (pos_value x))).
  - destruct (Qle_bool (2 ^ 1024) (Qred (pos_value x))) eqn:Ex.
    + apply Qle_bool_iff in Ex. rewrite Qred_correct in Ex.
      assert (Hy : Qle_bool (2 ^ 1024) (Qred (pos_value y)) = true).
      { apply Qle_bool_iff. rewrite Qred_correct.
        now apply Qle_trans with (pos_value x). }
      congruence.
    + now rewrite !Qred_correct.
Qed.

Lemma round_binary64_pos_nonneg x r :
  0 < x -> round_binary64_pos x = Some r -> 0 <= r.
Proof.
  intros Hx. rewrite round_binary64_pos_value.
  destruct (Qle_bool (2 ^ 1024) (Qred (pos_value x))); [discriminate|].
  intros H. assert (E : r = Qred (pos_value x)) by congruence.
  rewrite E, Qred_correct. now apply pos_value_nonneg.
Qed.

(** Rounding to binary64 never inverts an order. *)
Lemma round_binary64_monotone x y :
  x <= y -> dle (round_binary64 x) (round_binary64 y).
Proof.
  intros Hxy. unfold round_binary64.
  destruct (Qcompare_spec x 0) as [Hx|Hx|Hx];
    destruct (Qcompare_spec y 0) as [Hy|Hy|Hy];
    try (exfalso; lra).
  - apply Qle_refl.
  - destruct (round_binary64_pos y) as [r|] eqn:E; cbn [dle]; [|exact I].
    now apply round_binary64_pos_nonneg with y.
  - assert (Hnx : 0 < - x) by lra.
    destruct (round_binary64_pos (- x)) as [r|] eqn:E; cbn [dle]; [|exact I].
    rewrite Qred_correct.
    pose proof (round_binary64_pos_nonneg _ _ Hnx E). lra.
  - assert (Hny : 0 < - y) by lra. assert (Hle : - y <= - x) by lra.
    pose proof (round_binary64_pos_monotone _ _ Hny Hle) as H.
    destruct (round_binary64_pos (- x)) as [r|];
      destruct (round_binary64_pos (- y)) as [r'|]; cbn [dle]; try tauto.
    rewrite !Qred_correct. lra.
  - assert (Hnx : 0 < - x) by lra.
    destruct (round_binary64_pos (- x)) as [r|] eqn:E;
      destruct (round_binary64_pos y) as [r'|] eqn:E'; cbn [dle]; try exact I.
    rewrite Qred_correct.
    pose proof (round_binary64_pos_nonneg _ _ Hnx E).
    pose proof (round_binary64_pos_nonneg _ _ Hy E'). lra.
  - pose proof (round_binary64_pos_monotone _ _ Hx Hxy) as H.
    destruct (round_binary64_pos x) as [r|];
      destruct (round_binary64_pos y) as [r'|]; cbn [dle]; tauto.
Qed.







Lemma round_binary64_well_rounded : well_rounded round_binary64.
Proof.
  split; [exact round_binary64_monotone|].
  repeat split.
  - exists (inject_Z 0). split; [vm_compute|]; reflexivity.
  - exists (inject_Z 1). split; [vm_compute|]; reflexivity.
  - exists (inject_Z (2 ^ 64)). split; [vm_compute|]; reflexivity.
Qed.

End Binary64.

(** ** The pipeline on binary64 and literal patterns *)

Example build_example : build_stack_map (Some example_lines) = Ret example_map.
Proof. reflexivity. Qed.

Example main_example :
  main round_binary64 cstring literal_regex_compile literal_regex_match
       (Some example_lines) (Fin 10) 0 [] true
  = Exited 0 (Some [str "main;qux 85"]).
Proof. vm_compute. reflexivity. Qed.

Example main_example_limit_1 :
  main round_binary64 cstring literal_regex_compile literal_regex_match
       (Some example_lines) (Fin 10) 1 [] true
  = Exited 0 (Some [str "qux 85"]).
Proof. vm_compute. reflexivity. Qed.

Lemma line_without_space_aborts_witness :
  get_sample_count (str "main;foo") = Throw out_of_range /\
  main round_binary64 cstring literal_regex_compile literal_regex_match
       (Some (str "main;bar 3" :: str "main;foo" :: nil)) (Fin (1 # 2)) 0 []
       true
  = Exited 1 None.
Proof.
  destruct (line_without_space_aborts round_binary64 cstring
              literal_regex_compile literal_regex_match (str "main;foo"))
    as [H1 H2].
  - unfold representable. reflexivity.
  - simpl. intros H. repeat (destruct H as [H|H]; [discriminate H|]). exact H.
  - split; [exact H1|].
    apply (H2 [str "main;bar 3"] []).
    constructor; [discriminate|constructor].
Defined.

Lemma output_order_is_deterministic_witness :
  StronglySorted string_lt
    (map (fun e => leaf (hd [] (snd e)))
         [(10, [str "main;foo;bar 10"]); (85, [str "main;qux 85"])]) /\
  (forall e,
      In e [(10, [str "main;foo;bar 10"]); (85, [str "main;qux 85"])] ->
      snd e = group_of example_lines (leaf (hd [] (snd e)))) /\
  write_filtered_stack_to_file
    [(10, [str "main;foo;bar 10"]); (85, [str "main;qux 85"])] true
  = Ret [str "main;foo;bar 10"; str "main;qux 85"].
Proof.
  apply (output_order_is_deterministic round_binary64 cstring
           literal_regex_compile literal_regex_match
           example_lines example_map (Fin 5) []).
  - reflexivity.
  - vm_compute. reflexivity.
Defined.

Lemma round_binary64_exact_0 : exact_on round_binary64 0.
Proof. apply round_binary64_well_rounded. Qed.

(** C3 at concrete inputs: the malformed pattern ["("] is skipped when the
    input is empty, when no group passes the cutoff, and when an earlier
    pattern matches the only group that passes; each run ends with exit code
    0 and writes its output. *)
Lemma malformed_pattern_is_skipped :
  literal_regex_compile (str "(") = None /\
  main round_binary64 cstring literal_regex_compile literal_regex_match
       (Some []) (Fin (1 # 2)) 0 [str "("] true
  = Exited 0 (Some []) /\
  main round_binary64 cstring literal_regex_compile literal_regex_match
       (Some example_lines) (Fin 100) 0 [str "("] true
  = Exited 0 (Some []) /\
  main round_binary64 cstring literal_regex_compile literal_regex_match
       (Some example_lines) (Fin 10) 0 [str "qux"; str "("] true
  = Exited 0 (Some [str "main;qux 85"]).
Proof. repeat split; vm_compute; reflexivity. Qed.

Lemma malformed_pattern_aborts_when_reached_witness :
  (filter_stack round_binary64 cstring literal_regex_compile
                literal_regex_match
                example_map (Fin 10) [str "bar"; str "("; str "qux"]
   = Throw regex_error /\
   main round_binary64 cstring literal_regex_compile literal_regex_match
        (Some example_lines) (Fin 10) 2 [str "bar"; str "("; str "qux"] true
   = Exited 1 None) /\
  (filter_stack round_binary64 cstring literal_regex_compile
                literal_regex_match
                example_map (Fin 10) [str "qux"; str "("; str "bar"]
   = Ret [(85, [str "main;qux 85"])] /\
   exists written,
     main round_binary64 cstring literal_regex_compile literal_regex_match
          (Some example_lines) (Fin 10) 2 [str "qux"; str "("; str "bar"] true
     = Exited 0 (Some written)).
Proof.
  split.
  - destruct (malformed_pattern_aborts_when_reached round_binary64 cstring
                literal_regex_compile literal_regex_match
                example_lines example_map (Fin 10) 2
                [str "bar"] (str "(") [str "qux"] eq_refl eq_refl)
      as [Habort _].
    apply (Habort (str "qux") 85 [str "main;qux 85"] true).
    + simpl. tauto.
    + vm_compute. reflexivity.
    + intros p e [<-|[]] [= <-]. reflexivity.
  - destruct (malformed_pattern_aborts_when_reached round_binary64 cstring
                literal_regex_compile literal_regex_match
                example_lines example_map (Fin 10) 2
                [str "qux"] (str "(") [str "bar"] eq_refl eq_refl)
      as [_ Hskip].
    destruct Hskip as [Hf Hm].
    + repeat (apply Forall_cons; [discriminate|]). apply Forall_nil.
    + intros k n members [E|[E|[E|[]]]] Ha; injection E as <- <- <-.
      * vm_compute in Ha. discriminate Ha.
      * vm_compute in Ha. discriminate Ha.
      * reflexivity.
    + split.
      * etransitivity; [exact Hf|]. vm_compute. reflexivity.
      * apply Hm; [lia|].
        repeat (apply Forall_cons; [reflexivity|]). apply Forall_nil.
Defined.

(** C2 at concrete inputs: an empty file and a file whose counts are all zero
    have the total zero; the filter returns normally and the run ends with
    exit code 0 and an empty output file. *)
Lemma zero_total_runs_to_completion :
  total_samples_of [(str "a", (0, [str "a 0"]))] = 0 /\
  filter_stack round_binary64 cstring literal_regex_compile literal_regex_match
               [(str "a", (0, [str "a 0"]))] (Fin (1 # 2)) []
  = Ret [] /\
  main round_binary64 cstring literal_regex_compile literal_regex_match
       (Some [str "a 0"]) (Fin (1 # 2)) 0 [] true
  = Exited 0 (Some []) /\
  main round_binary64 cstring literal_regex_compile literal_regex_match
       (Some []) (Fin (1 # 2)) 0 [] true
  = Exited 0 (Some []).
Proof. repeat split; vm_compute; reflexivity. Qed.

Lemma zero_total_is_not_reported_witness :
  total_samples_of [(str "a", (0, [str "a 0"])); (str "b", (0, [str "b x"]))]
  = 0 /\
  filter_stack round_binary64 cstring literal_regex_compile literal_regex_match
    [(str "a", (0, [str "a 0"])); (str "b", (0, [str "b x"]))]
    (Fin (1 # 2)) [str "a"]
  = Ret [] /\
  main round_binary64 cstring literal_regex_compile literal_regex_match
       (Some [str "b x"; str "a 0"]) (Fin (1 # 2)) 3 [str "a"] true
  = Exited 0 (Some []).
Proof.
  destruct (zero_total_is_not_reported round_binary64 cstring
              literal_regex_compile literal_regex_match
              [(str "a", (0, [str "a 0"])); (str "b", (0, [str "b x"]))]
              (Fin (1 # 2)) [str "a"]) as (H1 & H2 & H3).
  - exact round_binary64_exact_0.
  - intros t [<-|[<-|[]]]; reflexivity.
  - split; [exact H1|]. split; [exact H2|].
    apply (H3 [str "b x"; str "a 0"] 3). reflexivity.
Defined.

Lemma not_In_existsb (c : ascii) (l : cstring) :
  existsb (Ascii.eqb c) l = false -> ~ In c l.
Proof.
  intros H Hin. assert (E : existsb (Ascii.eqb c) l = true).
  { apply existsb_exists. exists c. split; [exact Hin|apply Ascii.eqb_refl]. }
  congruence.
Qed.



Example boundary_group_is_dropped :
  total_samples_of boundary_map = 1000 /\
  (inject_Z 5 / inject_Z 1000 == (1 # 2) / 100)%Q /\
  deq (share round_binary64 5 1000)
      (cutoff_fraction round_binary64 (Fin (1 # 2))) = true /\
  above_cutoff round_binary64 5 1000 (Fin (1 # 2)) = false /\
  above_cutoff round_binary64 6 1000 (Fin (1 # 2)) = true /\
  main round_binary64 cstring literal_regex_compile literal_regex_match
       (Some boundary_lines) (Fin (1 # 2)) 0 [] true
  = Exited 0 (Some [str "x;b 995"]).
Proof. repeat split; vm_compute; reflexivity. Qed.

(** Beyond 2^53 the casts round.  With the counts 2^64 - 9140 and 8021, whose
    sum wraps to 2^64 - 1119, and the cutoff 0x1.8fffffffffffdp+6, the two
    casts round in opposite directions: the share as a double is above the
    bound as a double, while the exact quotient is not above the exact
    hundredth of the cutoff. *)
Example rounded_casts_shift_the_share :
  build_stack_map (Some [str "a -9140"; str "b 8021"])
  = Ret [(str "a", (2 ^ 64 - 9140, [str "a -9140"]));
         (str "b", (8021, [str "b 8021"]))] /\
  total_samples_of [(str "a", (2 ^ 64 - 9140, [str "a -9140"]));
                    (str "b", (8021, [str "b 8021"]))] = 2 ^ 64 - 1119 /\
  share round_binary64 (2 ^ 64 - 9140) (2 ^ 64 - 1119)
  = Fin (9007199254740989 # 9007199254740992) /\
  cutoff_fraction round_binary64 (Fin (7036874417766397 # 70368744177664))
  = Fin (2251799813685247 # 2251799813685248) /\
  above_cutoff round_binary64 (2 ^ 64 - 9140) (2 ^ 64 - 1119)
               (Fin (7036874417766397 # 70368744177664)) = true /\
  (inject_Z (2 ^ 64 - 9140) / inject_Z (2 ^ 64 - 1119)
   < (7036874417766397 # 70368744177664) / 100)%Q.
Proof.
  split; [reflexivity|]. split; [reflexivity|].
  split; [vm_compute; reflexivity|]. split; [vm_compute; reflexivity|].
  split; [vm_compute; reflexivity|]. vm_compute. reflexivity.
Qed.

(** C9 at a line with a [';'] after its last space: truncation keeps the text
    after that [';'], which has no count, while the group keeps its count. *)
Lemma truncation_can_drop_the_count :
  build_stack_map (Some [str "a 5;7"]) = Ret [(str "7", (5, [str "a 5;7"]))] /\
  filter_stack round_binary64 cstring literal_regex_compile literal_regex_match
               [(str "7", (5, [str "a 5;7"]))] (Fin 0) []
  = Ret [(5, [str "a 5;7"])] /\
  shrink_to_stack_limit [(5, [str "a 5;7"])] 1 = Ret [(5, [str "7"])] /\
  get_sample_count (str "7") = Throw out_of_range /\
  ~ consistent (5, [str "7"]).
Proof.
  split; [reflexivity|]. split; [vm_compute; reflexivity|].
  split; [reflexivity|]. split; [reflexivity|].
  intros [Hp _]. inversion Hp as [|? ? [c Hc] _]. discriminate Hc.
Qed.

Lemma counts_are_preserved_witness :
  (forall k e, In (k, e) example_map -> consistent e) /\
  Forall consistent [(85, [str "main;qux 85"])] /\
  Forall consistent [(85, [str "qux 85"])] /\
  Forall2 (fun e e' =>
             fst e' = fst e /\
             group_total (snd e')
             = group_total (group_of example_lines (leaf (hd [] (snd e)))))
          [(85, [str "main;qux 85"])] [(85, [str "qux 85"])].
Proof.
  apply (counts_are_preserved round_binary64 cstring literal_regex_compile
           literal_regex_match example_lines example_map (Fin 10) [] 1).
  - lia.
  - repeat constructor.
  - repeat constructor; apply not_In_existsb; reflexivity.
  - reflexivity.
  - vm_compute. reflexivity.
  - reflexivity.
Defined.

(** C6 at concrete inputs.  With the cutoff -1 and the pattern ["a"] the
    first pass keeps the group of ["a 0"], whose share 0 is above -0.01; the
    second pass sees a total of zero, the share is NaN, and the group is
    dropped. *)
Lemma filter_twice_can_differ :
  build_stack_map (Some [str "a 0"; str "b 1"])
  = Ret [(str "a", (0, [str "a 0"])); (str "b", (1, [str "b 1"]))] /\
  filter_stack round_binary64 cstring literal_regex_compile literal_regex_match
    [(str "a", (0, [str "a 0"])); (str "b", (1, [str "b 1"]))]
    (Fin (- 1)) [str "a"]
  = Ret [(0, [str "a 0"])] /\
  build_stack_map (Some (concat (map snd [(0, [str "a 0"])])))
  = Ret [(str "a", (0, [str "a 0"]))] /\
  filter_stack round_binary64 cstring literal_regex_compile literal_regex_match
    [(str "a", (0, [str "a 0"]))] (Fin (- 1)) [str "a"]
  = Ret [].
Proof.
  split; [reflexivity|]. split; [vm_compute; reflexivity|].
  split; [reflexivity|]. vm_compute. reflexivity.
Qed.

(** The same with no pattern and a positive cutoff, through wrap-around: the
    counts 5 and 2^64 - 4 add up to 1. *)
Example filter_twice_can_differ_by_wrap_around :
  build_stack_map (Some [str "a 5"; str "b -4"])
  = Ret [(str "a", (5, [str "a 5"])); (str "b", (2 ^ 64 - 4, [str "b -4"]))] /\
  total_samples_of
    [(str "a", (5, [str "a 5"])); (str "b", (2 ^ 64 - 4, [str "b -4"]))] = 1 /\
  filter_stack round_binary64 cstring literal_regex_compile literal_regex_match
    [(str "a", (5, [str "a 5"])); (str "b", (2 ^ 64 - 4, [str "b -4"]))]
    (Fin 600) []
  = Ret [(2 ^ 64 - 4, [str "b -4"])] /\
  build_stack_map (Some [str "b -4"])
  = Ret [(str "b", (2 ^ 64 - 4, [str "b -4"]))] /\
  filter_stack round_binary64 cstring literal_regex_compile literal_regex_match
    [(str "b", (2 ^ 64 - 4, [str "b -4"]))] (Fin 600) []
  = Ret [].
Proof.
  split; [reflexivity|]. split; [reflexivity|].
  split; [vm_compute; reflexivity|].
  split; [reflexivity|]. vm_compute. reflexivity.
Qed.

Lemma filter_twice_witness :
  exists m',
    build_stack_map (Some (concat (map snd [(85, [str "main;qux 85"])])))
    = Ret m' /\
    filter_stack round_binary64 cstring literal_regex_compile
                 literal_regex_match m' (Fin 10) [str "qux"; str "bar"]
    = Ret [(85, [str "main;qux 85"])].
Proof.
  apply (filter_twice round_binary64 cstring literal_regex_compile
           literal_regex_match example_lines example_map 10
           [str "qux"; str "bar"] [(85, [str "main;qux 85"])]).
  - exact round_binary64_well_rounded.
  - discriminate.
  - reflexivity.
  - reflexivity.
  - vm_compute. reflexivity.
Defined.

(** C4, the same line through the whole pipeline. *)
Example main_leading_delimiter :
  main round_binary64 cstring literal_regex_compile literal_regex_match
       (Some [str ";x 1"]) (Fin 0) 2 [] true
  = Exited 0 (Some [str "x 1"]).
Proof. vm_compute. reflexivity. Qed.

(** A count token that starts with digits is read up to its first character
    that is not a digit. *)
Example get_sample_count_prefix :
  get_sample_count (str "main;foo 12abc") = Ret 12.
Proof. reflexivity. Qed.

(** ** The further properties at concrete inputs *)

Lemma round_binary64_hundredth :
  exists q, round_binary64 (1 # 100) = Fin q /\ (1 # 100 <= q)%Q.
Proof.
  exists (5764607523034235 # 576460752303423488). split.
  - vm_compute. reflexivity.
  - discriminate.
Qed.

Lemma round_binary64_tiny :
  exists q, round_binary64 (1 # 18446744073709551616) = Fin q /\ (0 < q)%Q.
Proof.
  exists (1 # 18446744073709551616). split.
  - vm_compute. reflexivity.
  - reflexivity.
Qed.

Lemma get_lowest_stack_value_witness :
  get_lowest_stack (str "main 1;foo") = Ret (str "foo").
Proof.
  apply (get_lowest_stack_value (str "main 1;foo")). reflexivity.
Defined.

Lemma get_lowest_stack_last_frame_witness :
  get_lowest_stack (str "main;foo;bar 10") = Ret (str "bar") /\
  get_lowest_stack (str "bar 10") = Ret (str "bar").
Proof.
  destruct (get_lowest_stack_last_frame (str "main;foo") (str "bar") (str "10"))
    as [H1 H2].
  - apply not_In_existsb. reflexivity.
  - apply not_In_existsb. reflexivity.
  - apply not_In_existsb. reflexivity.
  - split; [apply H1|apply H2]; reflexivity.
Defined.

Lemma get_sample_count_decimal_witness :
  get_sample_count (str "main;foo 42ms") = Ret 42.
Proof.
  apply (get_sample_count_decimal (str "main;foo") 42%N (str "ms")).
  - reflexivity.
  - unfold INT_MAX. simpl. lia.
  - apply not_In_existsb. reflexivity.
  - reflexivity.
Defined.

Lemma get_sample_count_negative_witness :
  get_sample_count (str "main;foo -5") = Ret 18446744073709551611.
Proof.
  apply (get_sample_count_negative (str "main;foo") 5%N).
  - reflexivity.
  - unfold INT_MIN. simpl. lia.
Defined.

Lemma build_stack_map_groups_witness :
  StronglySorted string_lt (map fst grouped_map) /\
  forall k,
    map_find k grouped_map
    = match filter (fun line => string_eqb (leaf line) k) grouped_lines with
      | [] => None
      | members =>
          Some (SizeT.wrap (fold_right Z.add 0 (map count members)), members)
      end.
Proof.
  apply (build_stack_map_groups grouped_lines grouped_map). reflexivity.
Defined.

Lemma build_stack_map_accepts_witness :
  (exists m, build_stack_map (Some grouped_lines) = Ret m) <->
  Forall (fun line => In space line /\ atoi (count_token line) <> None)
         grouped_lines.
Proof.
  apply (build_stack_map_accepts grouped_lines).
  repeat (apply Forall_cons; [reflexivity|]). apply Forall_nil.
Defined.

Lemma build_stack_map_keeps_lines_witness :
  Permutation (concat (map (fun t => snd (snd t)) grouped_map)) grouped_lines.
Proof.
  apply (build_stack_map_keeps_lines grouped_lines grouped_map). reflexivity.
Defined.

Lemma build_stack_map_total_witness :
  total_samples_of grouped_map
  = SizeT.wrap (fold_right Z.add 0 (map count grouped_lines)).
Proof.
  apply (build_stack_map_total grouped_lines grouped_map). reflexivity.
Defined.

Lemma filter_stack_patterns_witness :
  filter_stack round_binary64 cstring literal_regex_compile literal_regex_match
               grouped_map (Fin 10) [str "read"; str "idle"]
  = Ret (map snd
           (filter (fun t => above_cutoff round_binary64 (fst (snd t))
                               (total_samples_of grouped_map) (Fin 10)
                             && existsb
                                  (pattern_matches cstring
                                     literal_regex_compile
                                     literal_regex_match (fst t))
                                  [str "read"; str "idle"])
                   grouped_map)).
Proof.
  apply (filter_stack_patterns round_binary64 cstring literal_regex_compile
           literal_regex_match grouped_lines grouped_map (Fin 10)
           (str "read") [str "idle"]).
  - reflexivity.
  - repeat (apply Forall_cons; [discriminate|]). apply Forall_nil.
Defined.

Lemma higher_cutoff_keeps_fewer_witness :
  incl [(7, [str "main;io;read 3"; str "main;net;read 4"])]
       [(2, [str "main;parse 2"]);
        (7, [str "main;io;read 3"; str "main;net;read 4"])].
Proof.
  apply (higher_cutoff_keeps_fewer round_binary64 cstring
           literal_regex_compile literal_regex_match
           round_binary64_well_rounded round_binary64_hundredth
           grouped_map 10 50 []).
  - discriminate.
  - vm_compute. reflexivity.
  - vm_compute. reflexivity.
Defined.

Lemma cutoff_hundred_keeps_nothing_witness :
  filter_stack round_binary64 cstring literal_regex_compile literal_regex_match
               grouped_map (Fin 100) [str "("]
  = Ret [].
Proof.
  apply (cutoff_hundred_keeps_nothing round_binary64 cstring
           literal_regex_compile literal_regex_match
           round_binary64_well_rounded round_binary64_hundredth
           grouped_lines grouped_map 100 [str "("]).
  - reflexivity.
  - reflexivity.
  - discriminate.
Defined.

Lemma cutoff_zero_keeps_sampled_groups_witness :
  filter_stack round_binary64 cstring literal_regex_compile literal_regex_match
               grouped_map (Fin 0) []
  = Ret (map snd (filter (fun t => 0 <? fst (snd t)) grouped_map)).
Proof.
  apply (cutoff_zero_keeps_sampled_groups round_binary64 cstring
           literal_regex_compile literal_regex_match
           round_binary64_well_rounded round_binary64_hundredth
           grouped_lines grouped_map round_binary64_tiny).
  - reflexivity.
  - reflexivity.
Defined.

Lemma shrink_line_keeps_leaf_witness :
  exists out,
    shrink_line 2 (str "main;foo;bar 10") = Ret out /\
    (exists pre, str "main;foo;bar 10" = pre ++ out) /\
    get_lowest_stack out = get_lowest_stack (str "main;foo;bar 10").
Proof.
  apply (shrink_line_keeps_leaf 2 (str "main;foo;bar 10")).
  - lia.
  - reflexivity.
Defined.


Lemma shrink_to_stack_limit_keeps_groups_witness :
  exists out,
    shrink_to_stack_limit
      [(2, [str "main;parse 2"]);
       (7, [str "main;io;read 3"; str "main;net;read 4"])] 1
    = Ret out /\
    Forall2 (fun e e' : stack_entry =>
               fst e' = fst e /\
               Forall2 (fun x x' => (exists pre, x = pre ++ x') /\
                                    get_lowest_stack x' = get_lowest_stack x)
                       (snd e) (snd e'))
            [(2, [str "main;parse 2"]);
             (7, [str "main;io;read 3"; str "main;net;read 4"])]
            out.
Proof.
  apply (shrink_to_stack_limit_keeps_groups
           [(2, [str "main;parse 2"]);
            (7, [str "main;io;read 3"; str "main;net;read 4"])] 1).
  - lia.
  - repeat (apply Forall_cons;
            [repeat (apply Forall_cons; [reflexivity|]); apply Forall_nil|]).
    apply Forall_nil.
Defined.

Lemma main_writes_ends_of_input_lines_witness :
  Forall (fun x' =>
            exists line pre,
              In line grouped_lines /\ line = pre ++ x' /\
              get_lowest_stack x' = get_lowest_stack line)
         [str "parse 2"; str "read 3"; str "read 4"].
Proof.
  apply (main_writes_ends_of_input_lines round_binary64 cstring
           literal_regex_compile literal_regex_match
           grouped_lines (Fin 10) 1 []).
  - lia.
  - repeat (apply Forall_cons; [reflexivity|]). apply Forall_nil.
  - vm_compute. reflexivity.
Defined.

Lemma operator_shift_left_joined_witness :
  operator_shift_left (fun x : cstring => x) (str "show = ")
                      [str "foo"; str "ba.*"; str "qux"]
  = Ret (str "show = (foo, ba.*, qux)").
Proof.
  apply (operator_shift_left_joined (fun x : cstring => x) (str "show = ")
           [str "foo"; str "ba.*"; str "qux"]).
  discriminate.
Defined.

Lemma main_succeeds_witness :
  (exists written,
     main round_binary64 cstring literal_regex_compile literal_regex_match
          (Some grouped_lines) (Fin 10) 1 [str "read"] true
     = Exited 0 (Some written)) <->
  Forall (fun line => In space line /\ atoi (count_token line) <> None)
         grouped_lines.
Proof.
  apply (main_succeeds round_binary64 cstring literal_regex_compile
           literal_regex_match grouped_lines (Fin 10) 1 [str "read"]).
  - lia.
  - repeat (apply Forall_cons; [reflexivity|]). apply Forall_nil.
  - repeat (apply Forall_cons; [discriminate|]). apply Forall_nil.
Defined.

Lemma get_sample_count_beyond_int_witness :
  get_sample_count (str "main;foo 2147483648") = Undefined.
Proof.
  apply (get_sample_count_beyond_int (str "main;foo") 2147483648%N).
  - reflexivity.
  - unfold INT_MAX. lia.
Defined.
